(** * parsy: a shallow embedding of [src/parsy/__init__.py]

    Python values are embedded in one universal type [value]; a call that
    does not return (it raises, or a [while True] loop never leaves) is
    [None] in an [option]; the result tuple [(status, next_index, value)]
    of a parser is a Rocq triple.  Generator functions handed to [generate]
    are interaction trees over the single event [Yield]. *)

From Stdlib Require Import ZArith String Ascii List Lia Bool DecimalString.
From ITree Require Import ITree.
Import ListNotations.
Import ITreeNotations.

#[local] Open Scope string_scope.
#[local] Open Scope Z_scope.

(* ================================================================== *)
(** ** Python strings *)
(* ================================================================== *)

(** Python's [str].  Characters are bytes here; the library indexes by
    code unit and never looks inside a character. *)
Definition str : Set := String.string.

(** [len(s)] *)
Definition len (s : str) : Z := Z.of_nat (String.length s).

(** How Python adjusts one bound of a slice of a sequence of length [n]:
    a negative bound counts from the end, and both are cut to [0..n]. *)
Definition slice_index (n k : Z) : Z :=
  if k <? 0 then Z.max (k + n) 0 else Z.min k n.

(** [s[start:stop]] *)
Definition slice (s : str) (start stop : Z) : str :=
  let a := slice_index (len s) start in
  let b := slice_index (len s) stop in
  substring (Z.to_nat a) (Z.to_nat (b - a)) s.

(** [s[index:]] *)
Definition slice_from (s : str) (index : Z) : str := slice s index (len s).

(** [s[index]]: a one-character string; [None] is the [IndexError]. *)
Definition getitem (s : str) (index : Z) : option str :=
  let i := if index <? 0 then index + len s else index in
  if i <? 0 then None
  else match get (Z.to_nat i) s with
       | Some c => Some (String c EmptyString)
       | None => None
       end.

Definition newline : ascii := "010"%char.

(** [s.count(c)] for a one-character [c]. *)
Fixpoint count (c : ascii) (s : str) : Z :=
  match s with
  | EmptyString => 0
  | String a s' => (if Ascii.eqb a c then 1 else 0) + count c s'
  end.

(** [s.rfind(c)] for a one-character [c]: the highest offset of [c] in
    [s], or [-1]. *)
Fixpoint rfind (c : ascii) (s : str) : Z :=
  match s with
  | EmptyString => -1
  | String a s' =>
      let r := rfind c s' in
      if 0 <=? r then r + 1 else if Ascii.eqb a c then 0 else -1
  end.

(** [repr(n)] of an [int]. *)
Definition repr_int (n : Z) : str := NilZero.string_of_int (Z.to_int n).

(** [str.isalpha] and [str.isdigit] on a one-character string (ASCII). *)
Definition isalpha (s : str) : bool :=
  match s with
  | String c EmptyString =>
      let n := Z.of_nat (nat_of_ascii c) in
      ((65 <=? n) && (n <=? 90)) || ((97 <=? n) && (n <=? 122))
  | _ => false
  end.

Definition isdigit (s : str) : bool :=
  match s with
  | String c EmptyString =>
      let n := Z.of_nat (nat_of_ascii c) in (48 <=? n) && (n <=? 57)
  | _ => false
  end.

(* ================================================================== *)
(** ** Position and error model *)
(* ================================================================== *)

(** [line_info_at(stream, index)]; [None] is the [raise]. *)
Definition line_info_at (stream : str) (index : Z) : option (Z * Z) :=
  if len stream <? index then None
  else
    let prefix := slice stream 0 index in
    let line := count newline prefix in
    let last_nl := rfind newline prefix in
    let col := if 0 <=? last_nl then index - 1 - last_nl else index in
    Some (line, col).

(* ================================================================== *)
(** ** Values, results and parsers *)
(* ================================================================== *)

(** The Python objects that parsers yield, expect and return. *)
#[warnings="-register-all"]
Inductive value : Set :=
| VNone
| VInt (n : Z)
| VStr (s : str)
| VList (l : list value)
| VTuple (l : list value)
| VParser (p : str -> Z -> option (bool * Z * value)).

(** The tuple [(status, next_index, value)]. *)
Definition ParseResult : Set := bool * Z * value.

(** [Parser(wrapped_fn)]; [__call__] is function application. *)
Definition Parser : Set := str -> Z -> option ParseResult.

(** A call that never hands back a tuple. *)
Definition raises : Parser := fun _ _ => None.

(** [class ParseError(RuntimeError)] *)
Module ParseError.

Record t : Set := {
  expected : value;
  stream : str;
  index : Z
}.

Definition line_info (self : t) : option (Z * Z) :=
  line_info_at (stream self) (index self).

Section Rendering.

(** Python's built-in [str()], which [{!s}] applies to [expected]; it
    is no part of this library. *)
Variable py_str : value -> str.

Definition __str__ (self : t) : option str :=
  match line_info self with
  | Some (line, col) =>
      Some ("parse error: expected " ++ py_str (expected self)
            ++ " at " ++ repr_int line ++ ":" ++ repr_int col)
  | None => None
  end.

End Rendering.

End ParseError.

(* ================================================================== *)
(** ** Primitive parsers *)
(* ================================================================== *)

Definition index : Parser :=
  fun stream index => Some (true, index, VInt index).

Definition line_info : Parser :=
  fun stream index =>
    match line_info_at stream index with
    | Some (line, col) => Some (true, index, VTuple [VInt line; VInt col])
    | None => None
    end.

Definition success (val : value) : Parser :=
  fun _ index => Some (true, index, val).

Definition fail (message : value) : Parser :=
  fun _ index => Some (false, index, message).

Definition string (s : str) : Parser :=
  let slen := len s in
  fun stream index =>
    if String.eqb (slice stream index (index + slen)) s
    then Some (true, index + slen, VStr s)
    else Some (false, index, VStr s).

(** A compiled pattern of Python's [re] module, which is no part of
    this library: its source text, and [exp.match(stream, pos)] as the
    pair of [match.end()] and [match.group(0)]. *)
Record Pattern : Set := {
  pattern : str;
  re_match : str -> Z -> option (Z * str)
}.

(** [regex(exp)] for a compiled [exp] (a [str] is compiled first). *)
Definition regex (exp : Pattern) : Parser :=
  fun stream index =>
    match re_match exp stream index with
    | Some (match_end, group0) => Some (true, match_end, VStr group0)
    | None => Some (false, index, VStr (pattern exp))
    end.

Definition item_matcher (fn : str -> bool) (message : value) : Parser :=
  fun stream index =>
    if index <? len stream then
      match getitem stream index with
      | Some item =>
          if fn item then Some (true, index + 1, VStr item)
          else Some (false, index, message)
      | None => None
      end
    else Some (false, index, message).

Definition letter : Parser := item_matcher isalpha (VStr "a letter").
Definition digit : Parser := item_matcher isdigit (VStr "a digit").

Definition eof : Parser :=
  fun stream index =>
    if index <? len stream then Some (false, index, VStr "EOF")
    else Some (true, index, VNone).

(* ================================================================== *)
(** ** Combinators *)
(* ================================================================== *)

Definition bind (self : Parser) (bind_fn : value -> Parser) : Parser :=
  fun stream index =>
    match self stream index with
    | Some (success, new_index, value) =>
        if success then
          let next_parser := bind_fn value in
          next_parser stream new_index
        else Some (false, index, value)
    | None => None
    end.

(** [map_fn] is a Python callable: [None] is an exception it raises. *)
Definition map (self : Parser) (map_fn : value -> option value) : Parser :=
  bind self (fun res =>
    match map_fn res with
    | Some v => success v
    | None => raises
    end).

Definition then_ (self other : Parser) : Parser :=
  bind self (fun _ => other).

Definition __rshift__ (self other : Parser) : Parser := then_ self other.

Definition result (self : Parser) (res : value) : Parser :=
  __rshift__ self (success res).

Definition skip (self other : Parser) : Parser :=
  bind self (fun res => result other res).

Definition __lshift__ (self other : Parser) : Parser := skip self other.

Definition __or__ (self other : Parser) : Parser :=
  fun stream index =>
    match self stream index with
    | Some (status, next_index, value) =>
        if status then Some (true, next_index, value)
        else other stream index
    | None => None
    end.

Definition desc (self : Parser) (description : value) : Parser :=
  __or__ self (fail description).

(** The [while True] loop of [many_parser], at most [fuel] rounds. *)
Fixpoint many_loop (fuel : nat) (self : Parser) (stream : str) (index : Z)
    (aggregate : list value) : option ParseResult :=
  match fuel with
  | O => None
  | S fuel' =>
      match self stream index with
      | Some (status, next_index, value) =>
          if status then
            many_loop fuel' self stream next_index (aggregate ++ [value])%list
          else Some (true, index, VList aggregate)
      | None => None
      end
  end.

Definition many (fuel : nat) (self : Parser) : Parser :=
  fun stream index => many_loop fuel self stream index [].

(** The second loop of [times_parser]: [for times in range(min, max)]. *)
Fixpoint times_optional (rounds : nat) (self : Parser) (stream : str)
    (index : Z) (aggregate : list value) : option ParseResult :=
  match rounds with
  | O => Some (true, index, VList aggregate)
  | S rounds' =>
      match self stream index with
      | Some (status, next_index, value) =>
          if status then
            times_optional rounds' self stream next_index
              (aggregate ++ [value])%list
          else Some (true, index, VList aggregate)
      | None => None
      end
  end.

(** The first loop, [for times in range(0, min)], followed by the
    second. *)
Fixpoint times_required (rounds more : nat) (self : Parser) (stream : str)
    (index : Z) (aggregate : list value) : option ParseResult :=
  match rounds with
  | O => times_optional more self stream index aggregate
  | S rounds' =>
      match self stream index with
      | Some (status, next_index, value) =>
          if status then
            times_required rounds' more self stream next_index
              (aggregate ++ [value])%list
          else Some (false, next_index, value)
      | None => None
      end
  end.

Definition times (self : Parser) (min : Z) (max : option Z) : Parser :=
  let max := match max with None => min | Some m => m end in
  fun stream index =>
    times_required (Z.to_nat min) (Z.to_nat (max - min)) self stream index [].

Definition at_most (self : Parser) (n : Z) : Parser :=
  times self 0 (Some n).

(** [res + res2]; [None] is the [TypeError].  When [res] is a parser,
    [+] is [Parser.__add__]: it makes the parser of the sum, whatever
    [res2] is, and [other.map] raises when that parser gets to an
    [other] that is no parser. *)
Fixpoint py_add (a b : value) {struct a} : option value :=
  match a, b with
  | VInt x, VInt y => Some (VInt (x + y))
  | VStr x, VStr y => Some (VStr (x ++ y))
  | VList x, VList y => Some (VList (x ++ y)%list)
  | VTuple x, VTuple y => Some (VTuple (x ++ y)%list)
  | VParser self, _ =>
      let other := match b with VParser q => q | _ => raises end in
      Some (VParser
        (bind self (fun res => map other (fun res2 => py_add res res2))))
  | _, _ => None
  end.

Definition __add__ (self other : Parser) : Parser :=
  bind self (fun res => map other (fun res2 => py_add res res2)).

Definition at_least (fuel : nat) (self : Parser) (n : Z) : Parser :=
  __add__ (times self n None) (many fuel self).

(** The right operand of [*]: a [range] or a number. *)
Variant repetition : Set :=
| Range (start stop : Z)
| Count (n : Z).

Definition __mul__ (self : Parser) (other : repetition) : Parser :=
  match other with
  | Range start stop => times self start (Some (stop - 1))
  | Count n => times self n None
  end.

(* ================================================================== *)
(** ** Coroutine-style sequencing *)
(* ================================================================== *)

(** What a generator does when it is resumed: it yields the next parser
    and waits for the value sent back. *)
Variant yieldE : Type -> Type :=
| Yield (next_parser : Parser) : yieldE value.

(** A running generator (the [iterator]): it yields parsers until it
    returns ([Ret] is the [StopIteration] with its value). *)
Definition generator : Type := itree yieldE value.

(** [x = yield p] *)
Definition yield_ (p : Parser) : generator := ITree.trigger (Yield p).

(** A generator function: [fn()] starts [body] afresh. *)
Record GeneratorFn : Type := {
  __name__ : str;
  body : generator
}.

(** The loop of [generated]: [fuel] bounds the number of times the
    iterator is resumed. *)
Fixpoint generated_loop (fuel : nat) (iterator : generator) (stream : str)
    (index : Z) : option ParseResult :=
  match fuel with
  | O => None
  | S fuel' =>
      match observe iterator with
      | RetF returnVal =>
          match returnVal with
          | VParser p => p stream index
          | _ => Some (true, index, returnVal)
          end
      | TauF iterator' => generated_loop fuel' iterator' stream index
      | VisF e k =>
          match e in yieldE X return (X -> generator) -> option ParseResult with
          | Yield next_parser => fun k =>
              match next_parser stream index with
              | Some (status, index', value) =>
                  if negb status then Some (false, index', value)
                  else generated_loop fuel' (k value) stream index'
              | None => None
              end
          end k
      end
  end.

Definition generated (fuel : nat) (fn : GeneratorFn) : Parser :=
  fun stream index => generated_loop fuel (body fn) stream index.

(** [generate(fn)] for a generator function [fn]. *)
Definition generate (fuel : nat) (fn : GeneratorFn) : Parser :=
  desc (generated fuel fn) (VStr (__name__ fn)).

(** [generate(label)(f)] for a [str] label. *)
Definition generate_desc (fuel : nat) (label : str) (f : GeneratorFn) : Parser :=
  desc (generate fuel f) (VStr label).

#[local] Open Scope itree_scope.

Definition marked (self : Parser) : GeneratorFn :=
  {| __name__ := "marked";
     body :=
       start <- yield_ line_info ;;
       body <- yield_ self ;;
       end_ <- yield_ line_info ;;
       Ret (VTuple [start; body; end_]) |}.

(** [marked] yields three times and returns: four resumptions. *)
Definition mark (self : Parser) : Parser := generate 4 (marked self).

(* ================================================================== *)
(** ** Entry points *)
(* ================================================================== *)

(** [parse_partial]: the pair it returns, or the [ParseError] it
    raises. *)
Definition parse_partial (self : Parser) (string : str)
    : option (value * str + ParseError.t) :=
  match self string 0 with
  | Some (status, index, value) =>
      if status then Some (inl (value, slice_from string index))
      else Some (inr {| ParseError.expected := value;
                        ParseError.stream := string;
                        ParseError.index := index |})
  | None => None
  end.

Definition parse (self : Parser) (string : str)
    : option (value + ParseError.t) :=
  match parse_partial (__lshift__ self eof) string with
  | Some (inl (result, _)) => Some (inl result)
  | Some (inr e) => Some (inr e)
  | None => None
  end.

(* ================================================================== *)
(** ** Python's [re], as far as [regex] relies on it *)
(* ================================================================== *)

(** Where a match attempt starts: [re] cuts [pos] to [0..len(stream)]. *)
Definition re_pos (stream : str) (pos : Z) : Z :=
  Z.max 0 (Z.min pos (len stream)).

(** What [re] gives for every pattern: a match covers a span of the
    input that starts where the attempt started. *)
Definition re_span (exp : Pattern) : Prop :=
  forall stream pos match_end group0,
    re_match exp stream pos = Some (match_end, group0) ->
    re_pos stream pos <= match_end <= len stream.

(** What only some patterns give: no match ends before the position
    that was asked for. *)
Definition re_forward (exp : Pattern) : Prop :=
  forall stream pos match_end group0,
    re_match exp stream pos = Some (match_end, group0) ->
    pos <= match_end.

(** [str.isspace] on an ASCII character. *)
Definition isspace (c : ascii) : bool :=
  let n := Z.of_nat (nat_of_ascii c) in
  ((9 <=? n) && (n <=? 13)) || ((28 <=? n) && (n <=? 32)).

(** Length of the longest prefix of [s] whose characters satisfy [f]. *)
Fixpoint run_length (f : ascii -> bool) (s : str) : nat :=
  match s with
  | String c s' => if f c then S (run_length f s') else O
  | EmptyString => O
  end.

(** [re.compile(r'\s+')]: one or more whitespace characters. *)
Definition whitespace_re : Pattern :=
  {| pattern := "\s+";
     re_match := fun stream pos =>
       let start := re_pos stream pos in
       let n := run_length isspace (slice_from stream start) in
       match n with
       | O => None
       | S _ => Some (start + Z.of_nat n, substring (Z.to_nat start) n stream)
       end |}.

Definition whitespace : Parser := regex whitespace_re.

(** [re.compile('')]: the empty pattern matches the empty string where
    the attempt starts. *)
Definition empty_re : Pattern :=
  {| pattern := "";
     re_match := fun stream pos => Some (re_pos stream pos, "") |}.

(* ================================================================== *)
(** ** Vocabulary of the specification *)
(* ================================================================== *)

(** The character of [input] at offset [j] is a newline. *)
Definition newline_at (input : str) (j : Z) : bool :=
  match get (Z.to_nat j) input with
  | Some c => Ascii.eqb c newline
  | None => false
  end.

(** The number of newline characters in [input[0:index]]. *)
Definition newlines_before (input : str) (index : Z) : Z :=
  Z.of_nat (List.length
    (filter (fun j => newline_at input (Z.of_nat j)) (seq 0 (Z.to_nat index)))).

(** [j] is the offset of the last newline before [index]. *)
Definition last_newline_before (input : str) (index j : Z) : Prop :=
  0 <= j < index /\ newline_at input j = true /\
  forall k, j < k < index -> newline_at input k = false.

Definition no_newline_before (input : str) (index : Z) : Prop :=
  forall k, 0 <= k < index -> newline_at input k = false.

(** The generator, started at [index], is resumed [n] times and the
    parser it yields at the [n]-th fails with [(j, e)]; all the parsers
    before succeeded.  Nothing is asked of the generator beyond that
    yield. *)
Inductive first_failure (stream : str)
  : generator -> Z -> nat -> Z -> value -> Prop :=
| ff_here g p k index j e :
    observe g = VisF (Yield p) k ->
    p stream index = Some (false, j, e) ->
    first_failure stream g index 1 j e
| ff_tau g g' index n j e :
    observe g = TauF g' ->
    first_failure stream g' index n j e ->
    first_failure stream g index (S n) j e
| ff_resume g p k index index' v n j e :
    observe g = VisF (Yield p) k ->
    p stream index = Some (true, index', v) ->
    first_failure stream (k v) index' n j e ->
    first_failure stream g index (S n) j e.

(** The chain of [bind]s written by hand for a generator: each [yield]
    becomes a [bind] whose function is the rest of the body, and the
    [return] becomes the returned parser or [success] of the value.
    [depth] bounds the length of the chain. *)
Fixpoint bind_chain (depth : nat) (g : generator) : Parser :=
  match depth with
  | O => raises
  | S depth' =>
      match observe g with
      | RetF returnVal =>
          match returnVal with
          | VParser p => p
          | _ => success returnVal
          end
      | TauF g' => bind_chain depth' g'
      | VisF e k =>
          match e in yieldE X return (X -> generator) -> Parser with
          | Yield p => fun k => bind p (fun v => bind_chain depth' (k v))
          end k
      end
  end.

(** The expressions written with [bind] alone over the parsers [sub]
    of a grammar, with [success] for the values they end in. *)
Inductive bind_expression (sub : Parser -> Prop) : Parser -> Prop :=
| be_sub p : sub p -> bind_expression sub p
| be_success v : bind_expression sub (success v)
| be_bind p f :
    bind_expression sub p -> (forall v, bind_expression sub (f v)) ->
    bind_expression sub (bind p f).

(** [p] is a parser that the generator yields, or returns, on some run. *)
Inductive offers : generator -> Parser -> Prop :=
| offers_return g p : observe g = RetF (VParser p) -> offers g p
| offers_yield g p k : observe g = VisF (Yield p) k -> offers g p
| offers_tau g g' p : observe g = TauF g' -> offers g' p -> offers g p
| offers_resume g q k v p :
    observe g = VisF (Yield q) k -> offers (k v) p -> offers g p.

(** The parsers built from the library's primitives and combinators,
    with compiled patterns taken among [ok].  The remaining combinators
    are defined from these ones; [raises] stands for a callable handed
    to [map] that raises. *)
Inductive built (ok : Pattern -> Prop) : Parser -> Prop :=
| built_index : built ok index
| built_line_info : built ok line_info
| built_success val : built ok (success val)
| built_fail message : built ok (fail message)
| built_string s : built ok (string s)
| built_regex exp : ok exp -> built ok (regex exp)
| built_item_matcher fn message : built ok (item_matcher fn message)
| built_eof : built ok eof
| built_raises : built ok raises
| built_bind self bind_fn :
    built ok self -> (forall v, built ok (bind_fn v)) ->
    built ok (bind self bind_fn)
| built_or self other :
    built ok self -> built ok other -> built ok (__or__ self other)
| built_many fuel self : built ok self -> built ok (many fuel self)
| built_times self min max : built ok self -> built ok (times self min max)
| built_generate fuel fn :
    (forall p, offers (body fn) p -> built ok p) ->
    built ok (generate fuel fn).

(** A region of starting indices of each input. *)
Definition region : Type := str -> Z -> Prop.

(** The indices that are not past the end of the input. *)
Definition in_input : region := fun stream index => index <= len stream.

(** All the indices. *)
Definition anywhere : region := fun _ _ => True.

(** A success of [p] from an index of the region ends at or after that
    index, and in the region. *)
Definition advances (inside : region) (p : Parser) : Prop :=
  forall stream index next v,
    inside stream index ->
    p stream index = Some (true, next, v) ->
    index <= next /\ inside stream next.

(** A failure of [p] from an index that is not past the end of the
    input is reported at an index that is not past the end either. *)
Definition reports_in_input (p : Parser) : Prop :=
  forall stream index j e,
    index <= len stream ->
    p stream index = Some (false, j, e) ->
    j <= len stream.

(** Two results are the same but for the index a failure reports. *)
Definition same_but_failure_index (r1 r2 : option ParseResult) : Prop :=
  match r1, r2 with
  | None, None => True
  | Some (true, i1, v1), Some (true, i2, v2) => i1 = i2 /\ v1 = v2
  | Some (false, _, e1), Some (false, _, e2) => e1 = e2
  | _, _ => False
  end.

(* ================================================================== *)
(** ** Grammars used as examples *)
(* ================================================================== *)

(** ["foo\nbar"] *)
Definition foo_bar : str := "foo" ++ String newline "bar".

(** [string("a") >> string("b")] *)
Definition a_then_b : Parser := __rshift__ (string "a") (string "b").

(** [def ab(): yield string("a"); b = yield string("b"); return b] *)
Definition ab : GeneratorFn :=
  {| __name__ := "ab";
     body := _ <- yield_ (string "a") ;; b <- yield_ (string "b") ;; Ret b |}.

(** [def a_rule(): x = yield string("a"); return x] *)
Definition a_rule : GeneratorFn :=
  {| __name__ := "a_rule";
     body := x <- yield_ (string "a") ;; Ret x |}.

(** [def nested(): x = yield (string("a") >> string("b")); return x] *)
Definition nested : GeneratorFn :=
  {| __name__ := "nested";
     body := x <- yield_ a_then_b ;; Ret x |}.

(** [ParseError("b", "c", 0)] *)
Definition expected_b : ParseError.t :=
  {| ParseError.expected := VStr "b";
     ParseError.stream := "c";
     ParseError.index := 0 |}.

(** [str()] on a [str] is the identity; the examples render no other
    expectation. *)
Definition str_of_label (v : value) : str :=
  match v with
  | VStr s => s
  | _ => "None"
  end.

(* ================================================================== *)
(** ** Facts about strings *)
(* ================================================================== *)

Lemma len_nonneg (s : str) : 0 <= len s.
Proof. unfold len. lia. Qed.

Lemma substring_length (s : str) (n m : nat) :
  String.length (substring n m s) = Nat.min m (String.length s - n).
Proof.
  revert n m. induction s as [|a s IH]; intros n m.
  - destruct n, m; reflexivity.
  - destruct n as [|n].
    + destruct m as [|m]; [reflexivity|]. simpl. now rewrite IH, Nat.sub_0_r.
    + simpl. apply IH.
Qed.

Lemma slice_length (s : str) (start stop : Z) :
  len (slice s start stop) =
  Z.max 0 (Z.min (slice_index (len s) stop - slice_index (len s) start)
                 (len s - slice_index (len s) start)).
Proof.
  unfold slice, len at 1. rewrite substring_length.
  pose proof (len_nonneg s). unfold len in *.
  unfold slice_index. destruct (start <? 0) eqn:Ea, (stop <? 0) eqn:Eb; lia.
Qed.

Lemma slice_prefix (s : str) (index : Z) :
  0 <= index <= len s -> slice s 0 index = substring 0 (Z.to_nat index) s.
Proof.
  intros H. unfold slice, slice_index. simpl (0 <? 0).
  destruct (index <? 0) eqn:E; [lia|].
  rewrite Z.min_l, (Z.min_l index) by lia. now rewrite Z.sub_0_r.
Qed.

Lemma get_prefix (s : str) (n k : nat) :
  get k (substring 0 n s) = if (k <? n)%nat then get k s else None.
Proof.
  destruct (Nat.ltb_spec k n) as [Hlt|Hge].
  - rewrite substring_correct1 by assumption. now rewrite Nat.add_0_r.
  - now apply substring_correct2.
Qed.

Lemma filter_shift_length (f : nat -> bool) (l : list nat) :
  List.length (filter f (List.map S l)) =
  List.length (filter (fun j => f (S j)) l).
Proof.
  induction l as [|x l IH]; simpl; [reflexivity|].
  destruct (f (S x)); simpl; now rewrite IH.
Qed.

Lemma count_prefix (c : ascii) (s : str) (n : nat) :
  count c (substring 0 n s) =
  Z.of_nat (List.length
    (filter (fun j => match get j s with
                      | Some a => Ascii.eqb a c
                      | None => false
                      end) (seq 0 n))).
Proof.
  revert s. induction n as [|n IH]; intros s.
  - destruct s; reflexivity.
  - destruct s as [|a s].
    + simpl. clear IH. generalize 1%nat.
      induction n as [|n IHn]; intros k; simpl; [reflexivity|apply IHn].
    + cbn [substring count seq filter get].
      rewrite IH, <- seq_shift.
      destruct (Ascii.eqb a c); cbn [List.length];
        rewrite filter_shift_length; lia.
Qed.

Lemma rfind_spec (c : ascii) (s : str) :
  (rfind c s = -1 /\ forall k, get k s <> Some c) \/
  (0 <= rfind c s < len s /\ get (Z.to_nat (rfind c s)) s = Some c /\
   forall k, (Z.to_nat (rfind c s) < k)%nat -> get k s <> Some c).
Proof.
  induction s as [|a s IH].
  - left. split; [reflexivity|]. intros k. now destruct k.
  - cbn [rfind]. unfold len in *. cbn [String.length].
    destruct IH as [[Hr Hno]|(Hr & Hget & Hno)].
    + destruct (Z.leb_spec 0 (rfind c s)) as [|_]; [lia|].
      destruct (Ascii.eqb_spec a c) as [->|Hne].
      * right. split; [lia|]. split; [reflexivity|].
        intros [|k] Hk; [simpl in Hk; lia|]. apply Hno.
      * left. split; [reflexivity|]. intros [|k]; simpl.
        -- congruence.
        -- apply Hno.
    + destruct (Z.leb_spec 0 (rfind c s)) as [_|]; [|lia].
      right. split; [lia|].
      replace (Z.to_nat (rfind c s + 1)) with (S (Z.to_nat (rfind c s))) by lia.
      split; [exact Hget|].
      intros [|k] Hk; [lia|]. simpl. apply Hno. lia.
Qed.

Lemma newline_at_true (input : str) (k : Z) :
  newline_at input k = true <-> get (Z.to_nat k) input = Some newline.
Proof.
  unfold newline_at. destruct (get (Z.to_nat k) input) as [a|].
  - destruct (Ascii.eqb_spec a newline); split; congruence.
  - split; discriminate.
Qed.

(* ================================================================== *)
(** ** Position and error model: [line_info_at], [ParseError.__str__] *)
(* ================================================================== *)

Lemma line_info_at_prefix (stream : str) (index : Z) :
  0 <= index <= len stream ->
  line_info_at stream index =
  let prefix := substring 0 (Z.to_nat index) stream in
  Some (count newline prefix,
        if 0 <=? rfind newline prefix then index - 1 - rfind newline prefix
        else index).
Proof.
  intros H. unfold line_info_at.
  destruct (Z.ltb_spec (len stream) index); [lia|].
  now rewrite slice_prefix.
Qed.

(** C5.  For [0 <= index <= len(input)], [line_info_at(input, index)]
    returns as line the number of newline characters in
    [input[0:index]], and as column [index - 1 - j] when [j] is the
    offset of the last newline before [index], and [index] when there
    is no newline before [index]. *)
Theorem line_info_at_line_and_column (input : str) (index : Z) :
  0 <= index <= len input ->
  exists line column,
    line_info_at input index = Some (line, column) /\
    line = newlines_before input index /\
    (forall j, last_newline_before input index j -> column = index - 1 - j) /\
    (no_newline_before input index -> column = index).
Proof.
  intros Hrange. rewrite line_info_at_prefix by assumption. cbv zeta.
  set (n := Z.to_nat index). set (prefix := substring 0 n input).
  assert (Hlen : len prefix = index).
  { unfold len, prefix. rewrite substring_length. unfold len in Hrange. lia. }
  assert (Hget : forall k, (k < n)%nat -> get k prefix = get k input).
  { intros k Hk. unfold prefix. rewrite get_prefix.
    now destruct (Nat.ltb_spec k n); [|lia]. }
  do 2 eexists. split; [reflexivity|]. split; [|split].
  - unfold prefix. rewrite count_prefix. unfold newlines_before. fold n.
    do 2 f_equal. apply filter_ext. intros j.
    unfold newline_at. now rewrite Nat2Z.id.
  - intros j (Hj & Hnl & Hlast).
    apply newline_at_true in Hnl.
    destruct (rfind_spec newline prefix) as [[_ Hno]|(Hr & Hat & Hno)].
    + exfalso. apply (Hno (Z.to_nat j)). rewrite Hget by lia. exact Hnl.
    + destruct (Z.leb_spec 0 (rfind newline prefix)); [|lia].
      enough (rfind newline prefix = j) by lia.
      destruct (Z.lt_trichotomy (rfind newline prefix) j) as [Hlt|[Heq|Hgt]].
      * exfalso. apply (Hno (Z.to_nat j)); [lia|].
        rewrite Hget by lia. exact Hnl.
      * exact Heq.
      * exfalso. rewrite Hget in Hat by lia.
        apply newline_at_true in Hat. rewrite Hlast in Hat by lia.
        discriminate.
  - intros Hnone.
    destruct (rfind_spec newline prefix) as [[Hr _]|(Hr & Hat & _)].
    + now rewrite Hr.
    + exfalso. rewrite Hget in Hat by lia.
      apply newline_at_true in Hat. rewrite Hnone in Hat by lia.
      discriminate.
Qed.

(** The theorem at ["foo\nbar"], index 4: the newline at offset 3 is
    the last one before it. *)
Lemma line_info_at_line_and_column_witness :
  exists line column,
    line_info_at foo_bar 4 = Some (line, column) /\
    line = newlines_before foo_bar 4 /\
    (forall j, last_newline_before foo_bar 4 j -> column = 4 - 1 - j) /\
    (no_newline_before foo_bar 4 -> column = 4).
Proof.
  apply (line_info_at_line_and_column foo_bar 4). vm_compute.
  split; discriminate.
Defined.

(** C6 as the code has it.  ["foo\nbar"] has seven characters, the
    newline at offset 3 and ['a'] at offset 5, and
    [line_info_at("foo\nbar", 5)] is [(1, 1)]. *)
Theorem line_info_at_foo_bar_5 :
  len foo_bar = 7 /\ newline_at foo_bar 3 = true /\
  getitem foo_bar 5 = Some "a" /\
  line_info_at foo_bar 5 = Some (1, 1).
Proof. repeat split. Qed.

(** C6 as stated fails: the column at index 5 is 1, not 0. *)
Lemma line_info_at_foo_bar_5_is_not_1_0 :
  line_info_at foo_bar 5 = Some (1, 1) /\
  line_info_at foo_bar 5 <> Some (1, 0).
Proof. split; [reflexivity|discriminate]. Qed.

(** C8 as the code has it.  When the stored index is at most the length
    of the stored input, the rendering of a [ParseError] is
    ["parse error: expected {expected} at {line}:{col}"], with [line] and
    [col] from [line_info_at]; past the end of the input [line_info_at]
    raises and there is no rendering. *)
Theorem parse_error_rendering (py_str : value -> str) (e : ParseError.t) :
  (ParseError.index e <= len (ParseError.stream e) ->
   exists line col,
     line_info_at (ParseError.stream e) (ParseError.index e) = Some (line, col) /\
     ParseError.__str__ py_str e =
     Some ("parse error: expected " ++ py_str (ParseError.expected e)
           ++ " at " ++ repr_int line ++ ":" ++ repr_int col)) /\
  (len (ParseError.stream e) < ParseError.index e ->
   ParseError.__str__ py_str e = None).
Proof.
  unfold ParseError.__str__, ParseError.line_info, line_info_at.
  split; intros H.
  - destruct (Z.ltb_spec (len (ParseError.stream e)) (ParseError.index e));
      [lia|].
    do 2 eexists. split; reflexivity.
  - now destruct (Z.ltb_spec (len (ParseError.stream e)) (ParseError.index e));
      [|lia].
Qed.

(** The theorem at [ParseError("b", "c", 0)]. *)
Lemma parse_error_rendering_witness :
  exists line col,
    line_info_at "c" 0 = Some (line, col) /\
    ParseError.__str__ str_of_label expected_b =
    Some ("parse error: expected " ++ "b" ++ " at "
          ++ repr_int line ++ ":" ++ repr_int col).
Proof.
  apply (proj1 (parse_error_rendering str_of_label expected_b)).
  vm_compute. discriminate.
Defined.

(** C8 as stated fails: the rendering has neither the word [line] nor
    the word [col]. *)
Lemma parse_error_rendering_has_no_line_col_words :
  ParseError.__str__ str_of_label expected_b =
    Some "parse error: expected b at 0:0" /\
  ParseError.__str__ str_of_label expected_b <>
    Some "parse error: expected b at line 0:col 0".
Proof. split; [reflexivity|discriminate]. Qed.

(* ================================================================== *)
(** ** [bind] and ordered choice *)
(* ================================================================== *)

Lemma bind_success (self : Parser) (bind_fn : value -> Parser)
    (stream : str) (index new_index : Z) (v : value) :
  self stream index = Some (true, new_index, v) ->
  bind self bind_fn stream index = bind_fn v stream new_index.
Proof. intros H. unfold bind. now rewrite H. Qed.

(** What [bind] does with a failure of its parser: the expectation is
    passed on, the index is the one [bind] was started at. *)
Lemma bind_failure (self : Parser) (bind_fn : value -> Parser)
    (stream : str) (index j : Z) (e : value) :
  self stream index = Some (false, j, e) ->
  bind self bind_fn stream index = Some (false, index, e).
Proof. intros H. unfold bind. now rewrite H. Qed.

Lemma bind_raises (self : Parser) (bind_fn : value -> Parser)
    (stream : str) (index : Z) :
  self stream index = None -> bind self bind_fn stream index = None.
Proof. intros H. unfold bind. now rewrite H. Qed.

(** C1 at [p = string("a") >> string("b")] on ["ac"] from index 0: [p]
    reports its failure at index 1, where ["b"] was expected, and
    [bind(p, f)] reports it at index 0, for every [f]. *)
Theorem bind_moves_failure_index :
  a_then_b "ac" 0 = Some (false, 1, VStr "b") /\
  forall bind_fn, bind a_then_b bind_fn "ac" 0 = Some (false, 0, VStr "b").
Proof.
  split; [reflexivity|]. intros bind_fn.
  now apply bind_failure with (j := 1).
Qed.

Lemma or_success (self other : Parser) (stream : str) (index next : Z)
    (v : value) :
  self stream index = Some (true, next, v) ->
  __or__ self other stream index = Some (true, next, v).
Proof. intros H. unfold __or__. now rewrite H. Qed.

Lemma or_failure (self other : Parser) (stream : str) (index j : Z)
    (e : value) :
  self stream index = Some (false, j, e) ->
  __or__ self other stream index = other stream index.
Proof. intros H. unfold __or__. now rewrite H. Qed.

(** C3.  If [p] succeeds at [index], [choice(p, q)] returns [p]'s
    result, and does so whatever stands in the place of [q], even a
    parser that never returns: [q] is not invoked.  If [p] fails, at
    whatever index [j] it reports the failure, [choice(p, q)] returns
    the result of [q] from the starting [index], as it is. *)
Theorem choice_left_bias_and_backtracking (p q : Parser) (stream : str)
    (index : Z) :
  (forall next v,
     p stream index = Some (true, next, v) ->
     __or__ p q stream index = Some (true, next, v) /\
     forall q', __or__ p q' stream index = Some (true, next, v)) /\
  (forall j e,
     p stream index = Some (false, j, e) ->
     __or__ p q stream index = q stream index).
Proof.
  split.
  - intros next v H. split; [|intros q']; now apply or_success.
  - intros j e H. now apply or_failure with (j := j) (e := e).
Qed.

(** The theorem on ["ac"]: [string("a")] succeeds, so a second
    alternative that never returns does no harm; and
    [string("a") >> string("b")] fails at index 1 after the ['a'], and
    the second alternative [string("a")] is run from index 0. *)
Lemma choice_left_bias_and_backtracking_witness :
  __or__ (string "a") raises "ac" 0 = Some (true, 1, VStr "a") /\
  __or__ a_then_b (string "a") "ac" 0 = string "a" "ac" 0.
Proof.
  split.
  - apply (proj1 (choice_left_bias_and_backtracking
                    (string "a") (string "b") "ac" 0) 1 (VStr "a")).
    reflexivity.
  - apply (proj2 (choice_left_bias_and_backtracking
                    a_then_b (string "a") "ac" 0) 1 (VStr "b")).
    reflexivity.
Defined.

(* ================================================================== *)
(** ** Quantifiers *)
(* ================================================================== *)

(** C7.  When [p] matches three times in a row from [i0] and then
    fails, [times(p, 2, 4)] succeeds with the three values in order, at
    the index where the third match ended; when [p] matches once and
    then fails with [(j, e)], [times(p, 2, 4)] fails with [(j, e)]. *)
Theorem times_2_4_boundary (p : Parser) (stream : str)
    (i0 i1 i2 i3 j : Z) (v1 v2 v3 e : value) :
  (p stream i0 = Some (true, i1, v1) ->
   p stream i1 = Some (true, i2, v2) ->
   p stream i2 = Some (true, i3, v3) ->
   p stream i3 = Some (false, j, e) ->
   times p 2 (Some 4) stream i0 = Some (true, i3, VList [v1; v2; v3])) /\
  (p stream i0 = Some (true, i1, v1) ->
   p stream i1 = Some (false, j, e) ->
   times p 2 (Some 4) stream i0 = Some (false, j, e)).
Proof.
  unfold times. change (Z.to_nat 2) with 2%nat.
  change (Z.to_nat (4 - 2)) with 2%nat.
  split.
  - intros H0 H1 H2 H3. cbn [times_required times_optional].
    rewrite H0. cbn [app]. rewrite H1. cbn [app]. rewrite H2. cbn [app].
    now rewrite H3.
  - intros H0 H1. cbn [times_required]. rewrite H0. cbn [app].
    now rewrite H1.
Qed.

(** The theorem for [string("a")] on ["aaab"] and on ["ab"]. *)
Lemma times_2_4_boundary_witness :
  times (string "a") 2 (Some 4) "aaab" 0 =
    Some (true, 3, VList [VStr "a"; VStr "a"; VStr "a"]) /\
  times (string "a") 2 (Some 4) "ab" 0 = Some (false, 1, VStr "a").
Proof.
  split.
  - apply (proj1 (times_2_4_boundary (string "a") "aaab" 0 1 2 3 3
                    (VStr "a") (VStr "a") (VStr "a") (VStr "a")));
      reflexivity.
  - apply (proj2 (times_2_4_boundary (string "a") "ab" 0 1 1 1 1
                    (VStr "a") (VStr "a") (VStr "a") (VStr "a")));
      reflexivity.
Defined.

(* ================================================================== *)
(** ** The empty literal *)
(* ================================================================== *)

Lemma slice_empty (s : str) (index : Z) : slice s index index = "".
Proof.
  unfold slice. rewrite Z.sub_diag. simpl (Z.to_nat 0).
  generalize (Z.to_nat (slice_index (len s) index)). intros n.
  revert n. induction s as [|a s IH]; intros [|n]; try reflexivity.
  simpl. apply IH.
Qed.

Lemma string_empty_everywhere (stream : str) (index : Z) :
  string "" stream index = Some (true, index, VStr "").
Proof.
  unfold string. change (len "") with 0. rewrite Z.add_0_r.
  now rewrite slice_empty.
Qed.

(** C10.  [string("")] succeeds at every index from 0 to the length of
    the input, the end of the input included, with the starting index
    as next index and the empty string as value. *)
Theorem string_empty_succeeds (input : str) (index : Z) :
  0 <= index <= len input ->
  string "" input index = Some (true, index, VStr "").
Proof. intros _. apply string_empty_everywhere. Qed.

(** The theorem at the end of ["ab"]. *)
Lemma string_empty_succeeds_witness :
  string "" "ab" 2 = Some (true, 2, VStr "").
Proof.
  apply (string_empty_succeeds "ab" 2). vm_compute. split; discriminate.
Defined.

(** A result of [many] does not change when its loop is given more
    rounds. *)
Lemma many_loop_more_fuel (fuel fuel' : nat) (self : Parser) (stream : str)
    (index : Z) (aggregate : list value) (r : ParseResult) :
  many_loop fuel self stream index aggregate = Some r ->
  (fuel <= fuel')%nat ->
  many_loop fuel' self stream index aggregate = Some r.
Proof.
  revert fuel' index aggregate.
  induction fuel as [|fuel IH]; intros fuel' index aggregate Hr Hle;
    [discriminate|].
  destruct fuel' as [|fuel']; [lia|].
  cbn [many_loop] in *.
  destruct (self stream index) as [[[[|] next_index] v]|]; try exact Hr.
  apply IH; [exact Hr|lia].
Qed.

(** The zero-width success keeps the loop of [many] going for ever:
    no number of rounds is enough for it to return. *)
Lemma many_string_empty_never_returns (fuel : nat) (stream : str)
    (index : Z) :
  many fuel (string "") stream index = None.
Proof.
  unfold many. generalize (@nil value).
  induction fuel as [|fuel IH]; intros aggregate; [reflexivity|].
  cbn [many_loop]. rewrite string_empty_everywhere. apply IH.
Qed.

(* ================================================================== *)
(** ** Coroutine-style sequencing: [generate] *)
(* ================================================================== *)

(** One round of the loop, by what the resumed generator does. *)
Lemma generated_loop_return (fuel : nat) (g : generator) (r : value)
    (stream : str) (index : Z) :
  observe g = RetF r ->
  generated_loop (S fuel) g stream index =
  match r with
  | VParser p => p stream index
  | _ => Some (true, index, r)
  end.
Proof. intros H. cbn [generated_loop]. now rewrite H. Qed.

Lemma generated_loop_tau (fuel : nat) (g g' : generator) (stream : str)
    (index : Z) :
  observe g = TauF g' ->
  generated_loop (S fuel) g stream index = generated_loop fuel g' stream index.
Proof. intros H. cbn [generated_loop]. now rewrite H. Qed.

Lemma generated_loop_yield (fuel : nat) (g : generator) (p : Parser)
    (k : value -> generator) (stream : str) (index : Z) :
  observe g = VisF (Yield p) k ->
  generated_loop (S fuel) g stream index =
  match p stream index with
  | Some (status, index', v) =>
      if negb status then Some (false, index', v)
      else generated_loop fuel (k v) stream index'
  | None => None
  end.
Proof. intros H. cbn [generated_loop]. now rewrite H. Qed.

(** A result does not change when the loop is given more rounds. *)
Lemma generated_loop_more_fuel (fuel fuel' : nat) (g : generator)
    (stream : str) (index : Z) (r : ParseResult) :
  generated_loop fuel g stream index = Some r ->
  (fuel <= fuel')%nat ->
  generated_loop fuel' g stream index = Some r.
Proof.
  revert fuel' g index.
  induction fuel as [|fuel IH]; intros fuel' g index Hr Hle; [discriminate|].
  destruct fuel' as [|fuel']; [lia|].
  cbn [generated_loop] in *.
  destruct (observe g) as [returnVal|g'|X ev k].
  - exact Hr.
  - apply IH; [exact Hr|lia].
  - destruct ev as [p].
    destruct (p stream index) as [[[status index'] v]|]; [|discriminate].
    destruct status; cbn [negb] in *; [|exact Hr].
    apply IH; [exact Hr|lia].
Qed.

Lemma generated_loop_first_failure (stream : str) (g : generator)
    (index : Z) (n : nat) (j : Z) (e : value) :
  first_failure stream g index n j e ->
  forall fuel, (n <= fuel)%nat ->
  generated_loop fuel g stream index = Some (false, j, e).
Proof.
  induction 1 as [g p k index j e Hg Hp
                 |g g' index n j e Hg _ IH
                 |g p k index index' v n j e Hg Hp _ IH];
    intros [|fuel] Hle; try lia.
  - rewrite (generated_loop_yield _ _ _ _ _ _ Hg), Hp. reflexivity.
  - rewrite (generated_loop_tau _ _ _ _ _ Hg). apply IH. lia.
  - rewrite (generated_loop_yield _ _ _ _ _ _ Hg), Hp. cbn [negb].
    apply IH. lia.
Qed.

(** Once a yielded parser has failed, what the generator would do next
    plays no part: any two generators that yield [p] first give the
    failure of [p]. *)
Lemma generated_loop_stops_at_failure (fuel fuel' : nat) (p : Parser)
    (k k' : value -> generator) (stream : str) (index j : Z) (e : value) :
  p stream index = Some (false, j, e) ->
  generated_loop (S fuel) (Vis (Yield p) k) stream index = Some (false, j, e) /\
  generated_loop (S fuel') (Vis (Yield p) k') stream index = Some (false, j, e).
Proof. intros H. cbn. now rewrite H. Qed.

(** C2 as the code has it.  When the parsers that the generator yields
    succeed up to the [n]-th, which fails with [(j, e)], the loop of
    [generated] returns the failure [(j, e)] at once: the generator is
    not resumed again and no value collected so far is in the result.
    The parser that [generate] hands out is [generated.desc(name)]: it
    fails at the starting index and expects the name of the function,
    or the label when [generate] was given one. *)
Theorem generate_first_failure (fuel : nat) (fn : GeneratorFn)
    (stream : str) (index : Z) (n : nat) (j : Z) (e : value) :
  first_failure stream (body fn) index n j e ->
  (n <= fuel)%nat ->
  generated fuel fn stream index = Some (false, j, e) /\
  generate fuel fn stream index = Some (false, index, VStr (__name__ fn)) /\
  forall label,
    generate_desc fuel label fn stream index = Some (false, index, VStr label).
Proof.
  intros Hff Hle.
  assert (H : generated fuel fn stream index = Some (false, j, e)).
  { unfold generated. now apply generated_loop_first_failure with (n := n). }
  assert (H' : generate fuel fn stream index
               = Some (false, index, VStr (__name__ fn))).
  { unfold generate, desc. now rewrite (or_failure _ _ _ _ _ _ H). }
  split; [exact H|]. split; [exact H'|]. intros label.
  unfold generate_desc, desc. now rewrite (or_failure _ _ _ _ _ _ H').
Qed.

Lemma ab_first_failure : first_failure "ac" (body ab) 0 2 1 (VStr "b").
Proof.
  eapply ff_resume; [cbn; reflexivity|reflexivity|].
  eapply ff_here; [cbn; reflexivity|reflexivity].
Qed.

(** The theorem for [ab] on ["ac"]: [string("a")] succeeds and
    [string("b")] fails at index 1. *)
Lemma generate_first_failure_witness :
  generated 3 ab "ac" 0 = Some (false, 1, VStr "b") /\
  generate 3 ab "ac" 0 = Some (false, 0, VStr "ab") /\
  forall label, generate_desc 3 label ab "ac" 0 = Some (false, 0, VStr label).
Proof.
  apply (generate_first_failure 3 ab "ac" 0 2 1 (VStr "b")).
  - eapply ff_resume; [cbn; reflexivity|reflexivity|].
    eapply ff_here; [cbn; reflexivity|reflexivity].
  - apply le_S, le_n.
Defined.

(** C2 as stated fails: for [ab] on ["ac"] the failing parser reports
    index 1 and expects ["b"], and the generated parser reports index 0
    and expects ["ab"]. *)
Lemma generate_hides_first_failure :
  first_failure "ac" (body ab) 0 2 1 (VStr "b") /\
  generate 3 ab "ac" 0 = Some (false, 0, VStr "ab") /\
  generate 3 ab "ac" 0 <> Some (false, 1, VStr "b").
Proof.
  split; [exact ab_first_failure|].
  split; [reflexivity|discriminate].
Qed.

(* ================================================================== *)
(** ** [generate] and hand-chained [bind] *)
(* ================================================================== *)

Lemma same_but_failure_index_refl (r : option ParseResult) :
  same_but_failure_index r r.
Proof. destruct r as [[[[|] i] v]|]; cbn; auto. Qed.

(** The loop of [generated] and the chain of [bind]s return together,
    succeed together with the same index and value, and fail together
    with the same expectation. *)
Lemma generated_loop_bind_chain (fuel : nat) (g : generator) (stream : str)
    (index : Z) :
  same_but_failure_index (generated_loop fuel g stream index)
                         (bind_chain fuel g stream index).
Proof.
  revert g index. induction fuel as [|fuel IH]; intros g index; [exact I|].
  cbn [generated_loop bind_chain].
  destruct (observe g) as [returnVal|g'|X ev k].
  - destruct returnVal; apply same_but_failure_index_refl.
  - apply IH.
  - destruct ev as [p]. unfold bind.
    destruct (p stream index) as [[[[|] index'] v]|]; cbn [negb].
    + apply IH.
    + reflexivity.
    + exact I.
Qed.

(** [desc] hides the index a failure reports. *)
Lemma desc_same_but_failure_index (p q : Parser) (description : value)
    (stream : str) (index : Z) :
  same_but_failure_index (p stream index) (q stream index) ->
  desc p description stream index = desc q description stream index.
Proof.
  unfold desc, __or__.
  destruct (p stream index) as [[[[|] i1] v1]|],
           (q stream index) as [[[[|] i2] v2]|]; cbn;
    try contradiction; try reflexivity.
  now intros [-> ->].
Qed.

(** On a success the loop and the chain return the same tuple. *)
Lemma generated_success_iff_bind_chain (fuel : nat) (fn : GeneratorFn)
    (stream : str) (index next : Z) (v : value) :
  generated fuel fn stream index = Some (true, next, v) <->
  bind_chain fuel (body fn) stream index = Some (true, next, v).
Proof.
  unfold generated.
  pose proof (generated_loop_bind_chain fuel (body fn) stream index) as H.
  destruct (generated_loop fuel (body fn) stream index) as [[[[|] i1] v1]|],
           (bind_chain fuel (body fn) stream index) as [[[[|] i2] v2]|];
    cbn in H; try contradiction;
    try (split; discriminate).
  destruct H as [-> ->]. reflexivity.
Qed.


Lemma string_a_on_b (index : Z) :
  string "a" "b" index = Some (false, index, VStr "a").
Proof.
  unfold string, slice.
  generalize (Z.to_nat (slice_index (len "b") index)).
  generalize (Z.to_nat (slice_index (len "b") (index + len "a")
                        - slice_index (len "b") index)).
  intros m n. now destruct n as [|[|n]], m as [|[|m]].
Qed.

(** On ["b"] an expression written with [bind] over [string("a")] can
    only fail expecting ["a"]. *)
Lemma bind_expression_on_b (chain : Parser) :
  bind_expression (eq (string "a")) chain ->
  forall index,
    match chain "b" index with
    | Some (false, _, e) => e = VStr "a"
    | _ => True
    end.
Proof.
  induction 1 as [p <-|v|p f _ IHp _ IHf]; intros index.
  - now rewrite string_a_on_b.
  - exact I.
  - unfold bind. specialize (IHp index).
    destruct (p "b" index) as [[[[|] new_index] x]|].
    + apply IHf.
    + exact IHp.
    + exact I.
Qed.


(** Without the label the loop and the chain need not report a failure
    at the same index: [bind] reports it where the chain started. *)
Lemma generated_and_bind_chain_failure_index :
  generated 2 nested "ac" 0 = Some (false, 1, VStr "b") /\
  bind_chain 2 (body nested) "ac" 0 = Some (false, 0, VStr "b").
Proof. split; reflexivity. Qed.

(* ================================================================== *)
(** ** A success never moves back *)
(* ================================================================== *)

Section Advances.

(** A region that the three consuming primitives keep, for the
    patterns [ok]. *)
Variable inside : region.
Variable ok : Pattern -> Prop.
Hypothesis string_inside : forall s, advances inside (string s).
Hypothesis item_matcher_inside :
  forall fn message, advances inside (item_matcher fn message).
Hypothesis regex_inside : forall exp, ok exp -> advances inside (regex exp).

Lemma stays_advances (p : Parser) :
  (forall stream index next v,
     p stream index = Some (true, next, v) -> next = index) ->
  advances inside p.
Proof.
  intros Hp stream index next v Hin Hs. apply Hp in Hs. subst next.
  split; [lia|exact Hin].
Qed.

Lemma eof_advances : advances inside eof.
Proof.
  apply stays_advances. intros stream index next v. unfold eof.
  destruct (index <? len stream); [discriminate|]. now intros [= <- _].
Qed.

Lemma line_info_advances : advances inside line_info.
Proof.
  apply stays_advances. intros stream index next v. unfold line_info.
  destruct (line_info_at stream index) as [[line col]|]; [|discriminate].
  now intros [= <- _].
Qed.

Lemma bind_advances (self : Parser) (bind_fn : value -> Parser) :
  advances inside self -> (forall v, advances inside (bind_fn v)) ->
  advances inside (bind self bind_fn).
Proof.
  intros Hself Hfn stream index next v Hin. unfold bind.
  destruct (self stream index) as [[[[|] new_index] x]|] eqn:Hs;
    try discriminate.
  intros Hnext. apply Hself in Hs; [|exact Hin]. destruct Hs as [Hle Hin'].
  apply Hfn in Hnext; [|exact Hin']. split; [lia|tauto].
Qed.

Lemma or_advances (self other : Parser) :
  advances inside self -> advances inside other ->
  advances inside (__or__ self other).
Proof.
  intros Hself Hother stream index next v Hin. unfold __or__.
  destruct (self stream index) as [[[[|] next_index] x]|] eqn:Hs;
    try discriminate.
  - intros [= <- _]. now apply Hself in Hs.
  - now apply Hother.
Qed.

Lemma many_loop_advances (self : Parser) (stream : str) (fuel : nat) :
  advances inside self ->
  forall index aggregate next v,
    inside stream index ->
    many_loop fuel self stream index aggregate = Some (true, next, v) ->
    index <= next /\ inside stream next.
Proof.
  intros Hself.
  induction fuel as [|fuel IH]; intros index aggregate next v Hin;
    [discriminate|].
  cbn [many_loop].
  destruct (self stream index) as [[[[|] next_index] x]|] eqn:Hs;
    try discriminate.
  - intros Hloop. apply Hself in Hs; [|exact Hin]. destruct Hs as [Hle Hin'].
    apply IH in Hloop; [|exact Hin']. split; [lia|tauto].
  - intros [= <- _]. split; [lia|exact Hin].
Qed.

Lemma times_optional_advances (self : Parser) (stream : str) (rounds : nat) :
  advances inside self ->
  forall index aggregate next v,
    inside stream index ->
    times_optional rounds self stream index aggregate = Some (true, next, v) ->
    index <= next /\ inside stream next.
Proof.
  intros Hself.
  induction rounds as [|rounds IH]; intros index aggregate next v Hin;
    cbn [times_optional].
  - intros [= <- _]. split; [lia|exact Hin].
  - destruct (self stream index) as [[[[|] next_index] x]|] eqn:Hs;
      try discriminate.
    + intros Hloop. apply Hself in Hs; [|exact Hin].
      destruct Hs as [Hle Hin'].
      apply IH in Hloop; [|exact Hin']. split; [lia|tauto].
    + intros [= <- _]. split; [lia|exact Hin].
Qed.

Lemma times_required_advances (self : Parser) (stream : str)
    (rounds more : nat) :
  advances inside self ->
  forall index aggregate next v,
    inside stream index ->
    times_required rounds more self stream index aggregate
      = Some (true, next, v) ->
    index <= next /\ inside stream next.
Proof.
  intros Hself.
  induction rounds as [|rounds IH]; intros index aggregate next v Hin;
    cbn [times_required].
  - now apply times_optional_advances.
  - destruct (self stream index) as [[[[|] next_index] x]|] eqn:Hs;
      try discriminate.
    intros Hloop. apply Hself in Hs; [|exact Hin]. destruct Hs as [Hle Hin'].
    apply IH in Hloop; [|exact Hin']. split; [lia|tauto].
Qed.

Lemma generated_loop_advances (stream : str) (fuel : nat) :
  forall g : generator,
    (forall p, offers g p -> advances inside p) ->
    forall index next v,
      inside stream index ->
      generated_loop fuel g stream index = Some (true, next, v) ->
      index <= next /\ inside stream next.
Proof.
  induction fuel as [|fuel IH]; intros g Hg index next v Hin; [discriminate|].
  cbn [generated_loop].
  destruct (observe g) as [returnVal|g'|X ev k] eqn:Hobs.
  - destruct returnVal as [| | | | |p];
      try (intros [= <- _]; split; [lia|exact Hin]).
    apply (Hg p); [now apply offers_return|exact Hin].
  - apply IH; [|exact Hin]. intros p Hp. apply Hg.
    now apply offers_tau with (g' := g').
  - destruct ev as [p].
    destruct (p stream index) as [[[[|] index'] x]|] eqn:Hp; cbn [negb];
      try discriminate.
    intros Hloop.
    apply (Hg p) in Hp; [|now apply offers_yield with (k := k)|exact Hin].
    destruct Hp as [Hle Hin'].
    apply IH in Hloop; [split; [lia|tauto]| |exact Hin'].
    intros q Hq. apply Hg.
    now apply offers_resume with (q := p) (k := k) (v := x).
Qed.

Lemma built_advances (p : Parser) : built ok p -> advances inside p.
Proof.
  induction 1 as [| |val|message|s|exp Hok|fn message| |
                  |self bind_fn _ IHself _ IHfn
                  |self other _ IHself _ IHother
                  |fuel self _ IHself
                  |self min max _ IHself
                  |fuel fn _ IHfn].
  - apply stays_advances. now intros stream index next v [= <- _].
  - apply line_info_advances.
  - apply stays_advances. now intros stream index next v [= <- _].
  - intros stream index next v Hin. discriminate.
  - apply string_inside.
  - now apply regex_inside.
  - apply item_matcher_inside.
  - apply eof_advances.
  - intros stream index next v Hin. discriminate.
  - now apply bind_advances.
  - now apply or_advances.
  - intros stream index next v Hin. now apply many_loop_advances.
  - intros stream index next v Hin. now apply times_required_advances.
  - apply or_advances; [|intros stream index next v Hin; discriminate].
    intros stream index next v Hin. now apply generated_loop_advances.
Qed.

End Advances.

(** The consuming primitives from an index that is not past the end. *)
Lemma string_in_input (s : str) : advances in_input (string s).
Proof.
  intros stream index next v Hle. unfold in_input in *. unfold string.
  destruct (String.eqb_spec (slice stream index (index + len s)) s)
    as [Heq|_]; [|discriminate].
  intros [= <- _].
  pose proof (slice_length stream index (index + len s)) as Hlen.
  rewrite Heq in Hlen.
  pose proof (len_nonneg s). pose proof (len_nonneg stream).
  unfold slice_index in Hlen.
  destruct (Z.ltb_spec index 0), (Z.ltb_spec (index + len s) 0); lia.
Qed.

Lemma item_matcher_in_input (fn : str -> bool) (message : value) :
  advances in_input (item_matcher fn message).
Proof.
  intros stream index next v Hle. unfold in_input in *. unfold item_matcher.
  destruct (Z.ltb_spec index (len stream)); [|discriminate].
  destruct (getitem stream index) as [item|]; [|discriminate].
  destruct (fn item); [|discriminate].
  intros [= <- _]. lia.
Qed.

Lemma regex_in_input (exp : Pattern) :
  re_span exp -> advances in_input (regex exp).
Proof.
  intros Hspan stream index next v Hle. unfold in_input in *. unfold regex.
  destruct (re_match exp stream index) as [[match_end group0]|] eqn:Hm;
    [|discriminate].
  intros [= <- _]. apply Hspan in Hm. unfold re_pos in Hm.
  pose proof (len_nonneg stream). lia.
Qed.

(** The consuming primitives from any index. *)
Lemma string_anywhere (s : str) : advances anywhere (string s).
Proof.
  intros stream index next v _. unfold string.
  destruct (String.eqb (slice stream index (index + len s)) s);
    [|discriminate].
  intros [= <- _]. pose proof (len_nonneg s). split; [lia|exact I].
Qed.

Lemma item_matcher_anywhere (fn : str -> bool) (message : value) :
  advances anywhere (item_matcher fn message).
Proof.
  intros stream index next v _. unfold item_matcher.
  destruct (index <? len stream); [|discriminate].
  destruct (getitem stream index) as [item|]; [|discriminate].
  destruct (fn item); [|discriminate].
  intros [= <- _]. split; [lia|exact I].
Qed.

Lemma regex_anywhere (exp : Pattern) :
  re_forward exp -> advances anywhere (regex exp).
Proof.
  intros Hfw stream index next v _. unfold regex.
  destruct (re_match exp stream index) as [[match_end group0]|] eqn:Hm;
    [|discriminate].
  intros [= <- _]. apply Hfw in Hm. split; [exact Hm|exact I].
Qed.

Section Derived.

Variable ok : Pattern -> Prop.

(** The combinators that are defined from [bind], [__or__], [times],
    [many] and [generate] build such parsers too. *)
Lemma built_map (self : Parser) (map_fn : value -> option value) :
  built ok self -> built ok (map self map_fn).
Proof.
  intros H. apply built_bind; [exact H|]. intros v.
  destruct (map_fn v); constructor.
Qed.

Lemma built_then (self other : Parser) :
  built ok self -> built ok other -> built ok (then_ self other).
Proof. intros Hs Ho. now apply built_bind. Qed.

Lemma built_rshift (self other : Parser) :
  built ok self -> built ok other -> built ok (__rshift__ self other).
Proof. apply built_then. Qed.

Lemma built_result (self : Parser) (res : value) :
  built ok self -> built ok (result self res).
Proof. intros H. apply built_rshift; [exact H|constructor]. Qed.

Lemma built_skip (self other : Parser) :
  built ok self -> built ok other -> built ok (skip self other).
Proof.
  intros Hs Ho. apply built_bind; [exact Hs|]. intros v.
  now apply built_result.
Qed.

Lemma built_lshift (self other : Parser) :
  built ok self -> built ok other -> built ok (__lshift__ self other).
Proof. apply built_skip. Qed.

Lemma built_desc (self : Parser) (description : value) :
  built ok self -> built ok (desc self description).
Proof. intros H. apply built_or; [exact H|constructor]. Qed.

Lemma built_at_most (self : Parser) (n : Z) :
  built ok self -> built ok (at_most self n).
Proof. intros H. now apply built_times. Qed.

Lemma built_add (self other : Parser) :
  built ok self -> built ok other -> built ok (__add__ self other).
Proof.
  intros Hs Ho. apply built_bind; [exact Hs|]. intros v.
  now apply built_map.
Qed.

Lemma built_at_least (fuel : nat) (self : Parser) (n : Z) :
  built ok self -> built ok (at_least fuel self n).
Proof.
  intros H. apply built_add; [now apply built_times|now apply built_many].
Qed.

Lemma built_mul (self : Parser) (other : repetition) :
  built ok self -> built ok (__mul__ self other).
Proof. intros H. destruct other; now apply built_times. Qed.

Lemma built_generate_desc (fuel : nat) (label : str) (f : GeneratorFn) :
  (forall p, offers (body f) p -> built ok p) ->
  built ok (generate_desc fuel label f).
Proof. intros H. apply built_desc. now apply built_generate. Qed.

Lemma built_letter : built ok letter.
Proof. apply built_item_matcher. Qed.

Lemma built_digit : built ok digit.
Proof. apply built_item_matcher. Qed.

(** What a generator offers, read off its first step. *)
Lemma offers_inv (g : generator) (p : Parser) :
  offers g p ->
  match observe g with
  | RetF r => r = VParser p
  | TauF g' => offers g' p
  | VisF e k =>
      match e in yieldE X return (X -> generator) -> Prop with
      | Yield q => fun k => q = p \/ exists v, offers (k v) p
      end k
  end.
Proof.
  intros [g0 p0 H|g0 p0 k H|g0 g' p0 H Ho|g0 q k v p0 H Ho]; rewrite H.
  - reflexivity.
  - now left.
  - exact Ho.
  - right. now exists v.
Qed.

Lemma built_mark (self : Parser) : built ok self -> built ok (mark self).
Proof.
  intros Hself. apply built_generate. intros p Hp.
  apply offers_inv in Hp. cbn in Hp.
  destruct Hp as [<-|[start Hp]]; [constructor|].
  apply offers_inv in Hp. cbn in Hp.
  destruct Hp as [<-|[body Hp]]; [exact Hself|].
  apply offers_inv in Hp. cbn in Hp.
  destruct Hp as [<-|[end_ Hp]]; [constructor|].
  apply offers_inv in Hp. cbn in Hp. discriminate.
Qed.

End Derived.

(** The two patterns modelled above. *)
Lemma run_length_le (f : ascii -> bool) (s : str) :
  (run_length f s <= String.length s)%nat.
Proof.
  induction s as [|c s IH]; cbn; [lia|]. destruct (f c); lia.
Qed.

Lemma whitespace_re_span : re_span whitespace_re.
Proof.
  intros stream pos match_end group0. cbn [re_match whitespace_re].
  pose proof (run_length_le isspace (slice_from stream (re_pos stream pos)))
    as Hrun.
  destruct (run_length isspace (slice_from stream (re_pos stream pos)))
    as [|n]; [discriminate|].
  intros [= <- _].
  pose proof (slice_length stream (re_pos stream pos) (len stream)) as Hlen.
  fold (slice_from stream (re_pos stream pos)) in Hlen.
  unfold len at 1 in Hlen. pose proof (len_nonneg stream).
  unfold slice_index, re_pos in *.
  destruct (Z.ltb_spec (Z.max 0 (Z.min pos (len stream))) 0),
           (Z.ltb_spec (len stream) 0); lia.
Qed.

(** One whitespace character at least is matched, so an attempt past
    the end of the input finds nothing. *)
Lemma whitespace_re_forward : re_forward whitespace_re.
Proof.
  intros stream pos match_end group0 Hm.
  pose proof (whitespace_re_span _ _ _ _ Hm) as Hspan.
  cbn [re_match whitespace_re] in Hm.
  destruct (run_length isspace (slice_from stream (re_pos stream pos)))
    as [|n]; [discriminate|].
  injection Hm as <- _. unfold re_pos in *. lia.
Qed.

Lemma built_whitespace (ok : Pattern -> Prop) :
  ok whitespace_re -> built ok whitespace.
Proof. apply built_regex. Qed.

Lemma empty_re_span : re_span empty_re.
Proof.
  intros stream pos match_end group0 [= <- _].
  pose proof (len_nonneg stream). unfold re_pos. lia.
Qed.



(** Past the end of the input, which is no position of it, [regex] can
    return an earlier index: [re] starts a match attempt no further
    than the end, so [regex('')], started at index 1 of the empty
    input, succeeds with next index 0. *)
Lemma regex_moves_back_past_the_end :
  built re_span (regex empty_re) /\
  regex empty_re "" 1 = Some (true, 0, VStr "") /\
  0 < 1.
Proof.
  split; [apply built_regex, empty_re_span|].
  split; [reflexivity|lia].
Qed.

(* ================================================================== *)
(** ** Further facts about strings *)
(* ================================================================== *)

Lemma append_length (a b : str) :
  String.length (a ++ b) = (String.length a + String.length b)%nat.
Proof. induction a as [|c a IH]; cbn; [reflexivity|now rewrite IH]. Qed.

Lemma len_append (a b : str) : len (a ++ b) = len a + len b.
Proof. unfold len. rewrite append_length. lia. Qed.

Lemma append_assoc (a b c : str) : (a ++ b) ++ c = a ++ (b ++ c).
Proof. induction a as [|x a IH]; cbn; [reflexivity|now rewrite IH]. Qed.

Lemma append_nil_r (a : str) : a ++ "" = a.
Proof. induction a as [|x a IH]; cbn; [reflexivity|now rewrite IH]. Qed.

(** A string is its first [n] characters followed by the rest. *)
Lemma substring_split (s : str) (n : nat) :
  substring 0 n s ++ substring n (String.length s - n) s = s.
Proof.
  revert n. induction s as [|c s IH]; intros [|n]; cbn; try reflexivity.
  - f_equal. specialize (IH 0%nat). cbn in IH.
    rewrite Nat.sub_0_r in IH. destruct s; [reflexivity|exact IH].
  - f_equal. apply IH.
Qed.

Lemma substring_all (s : str) : substring 0 (String.length s) s = s.
Proof. induction s as [|c s IH]; cbn; [reflexivity|now rewrite IH]. Qed.

(** The [m] characters found after a prefix [pre]. *)
Lemma substring_append (pre t : str) (m : nat) :
  substring (String.length pre) m (pre ++ t) = substring 0 m t.
Proof. induction pre as [|c pre IH]; cbn; [reflexivity|exact IH]. Qed.

Lemma substring_prefix_append (t post : str) :
  substring 0 (String.length t) (t ++ post) = t.
Proof.
  induction t as [|c t IH]; cbn; [now destruct post|now rewrite IH].
Qed.

(** Three-way split: before [n], [m] characters from [n], and after. *)
Lemma substring_split3 (s : str) (n m : nat) :
  (n + m <= String.length s)%nat ->
  s = substring 0 n s ++ substring n m s
      ++ substring (n + m) (String.length s - (n + m)) s.
Proof.
  revert n. induction s as [|c s IH]; intros n Hle.
  - cbn in Hle. assert (n = 0%nat) by lia. assert (m = 0%nat) by lia.
    subst. reflexivity.
  - destruct n as [|n].
    + cbn [Nat.add]. change (substring 0 0 (String c s)) with "".
      cbn [append]. symmetry. apply substring_split.
    + cbn in Hle. cbn. f_equal. apply IH. lia.
Qed.

(** Slices at non-negative bounds are substrings. *)
Lemma slice_substring (s : str) (start stop : Z) :
  0 <= start <= len s -> start <= stop ->
  slice s start stop =
  substring (Z.to_nat start) (Z.to_nat (Z.min stop (len s) - start)) s.
Proof.
  intros Hs Hle. unfold slice, slice_index.
  destruct (Z.ltb_spec start 0), (Z.ltb_spec stop 0); try lia.
  now rewrite (Z.min_l start) by lia.
Qed.

(** [s[0:index] + s[index:] == s], whatever the index. *)
Lemma slice_split (s : str) (index : Z) :
  slice s 0 index ++ slice_from s index = s.
Proof.
  unfold slice_from, slice. pose proof (len_nonneg s) as Hlen.
  assert (Hb : 0 <= slice_index (len s) index <= len s).
  { unfold slice_index. destruct (Z.ltb_spec index 0); lia. }
  set (b := slice_index (len s) index) in *.
  replace (slice_index (len s) 0) with 0
    by (unfold slice_index; cbn; lia).
  replace (slice_index (len s) (len s)) with (len s)
    by (unfold slice_index; destruct (Z.ltb_spec (len s) 0); lia).
  rewrite Z.sub_0_r. change (Z.to_nat 0) with 0%nat.
  replace (Z.to_nat (len s - b)) with (String.length s - Z.to_nat b)%nat
    by (unfold len in *; lia).
  apply substring_split.
Qed.

Lemma count_append (c : ascii) (a b : str) :
  count c (a ++ b) = count c a + count c b.
Proof. induction a as [|x a IH]; cbn [append count]; [lia|rewrite IH; lia]. Qed.

Lemma count_nonneg (c : ascii) (s : str) : 0 <= count c s.
Proof.
  induction s as [|x s IH]; cbn [count]; [lia|].
  destruct (Ascii.eqb x c); lia.
Qed.

Lemma rfind_ge (c : ascii) (s : str) : -1 <= rfind c s.
Proof.
  induction s as [|x s IH]; cbn [rfind]; [lia|].
  destruct (Z.leb_spec 0 (rfind c s)); [lia|]. destruct (Ascii.eqb x c); lia.
Qed.

Lemma rfind_absent (c : ascii) (s : str) : count c s = 0 -> rfind c s = -1.
Proof.
  induction s as [|x s IH]; cbn [count rfind]; [reflexivity|].
  pose proof (count_nonneg c s). destruct (Ascii.eqb x c); [lia|].
  intros H0. rewrite IH by lia. reflexivity.
Qed.

Lemma rfind_append (c : ascii) (a b : str) :
  rfind c (a ++ b) =
  if 0 <=? rfind c b then len a + rfind c b else rfind c a.
Proof.
  induction a as [|x a IH]; cbn [append rfind].
  - change (len "") with 0. pose proof (rfind_ge c b).
    destruct (Z.leb_spec 0 (rfind c b)); [lia|]. cbn [rfind]. lia.
  - rewrite IH. unfold len. cbn [String.length].
    destruct (Z.leb_spec 0 (rfind c b)).
    + destruct (Z.leb_spec 0 (Z.of_nat (String.length a) + rfind c b)); lia.
    + reflexivity.
Qed.

(* ================================================================== *)
(** ** Literals and positions, by the text around them *)
(* ================================================================== *)

(** X1.  From an index inside the input, [string(s)] succeeds exactly
    when [s] stands in the input at that index (the input is some
    [pre], then [s], then some [post], with [len(pre) == index]); it
    then consumes [len(s)] and yields [s].  Otherwise it fails at the
    index it was started at, expecting [s]. *)
Theorem string_matches_occurrence (s input : str) (index : Z) :
  0 <= index <= len input ->
  (string s input index = Some (true, index + len s, VStr s) <->
   exists pre post, input = pre ++ s ++ post /\ len pre = index) /\
  (string s input index = Some (true, index + len s, VStr s) \/
   string s input index = Some (false, index, VStr s)).
Proof.
  intros Hrange. pose proof (len_nonneg s) as Hs.
  assert (Hslice : slice input index (index + len s) =
                   substring (Z.to_nat index)
                     (Z.to_nat (Z.min (index + len s) (len input) - index))
                     input)
    by (apply slice_substring; lia).
  split.
  - unfold string. rewrite Hslice. split.
    + destruct (String.eqb_spec
                  (substring (Z.to_nat index)
                     (Z.to_nat (Z.min (index + len s) (len input) - index))
                     input) s) as [Heq|]; [|discriminate].
      intros _.
      pose proof (substring_length input (Z.to_nat index)
                    (Z.to_nat (Z.min (index + len s) (len input) - index)))
        as Hlen.
      rewrite Heq in Hlen. unfold len in *.
      assert (Hfit : (Z.to_nat index + String.length s
                      <= String.length input)%nat) by lia.
      assert (Hm : Z.to_nat (Z.min (index + Z.of_nat (String.length s))
                               (Z.of_nat (String.length input)) - index)
                   = String.length s) by lia.
      rewrite Hm in Heq.
      exists (substring 0 (Z.to_nat index) input).
      exists (substring (Z.to_nat index + String.length s)
                (String.length input - (Z.to_nat index + String.length s))
                input).
      split.
      * pose proof (substring_split3 input (Z.to_nat index)
                      (String.length s) Hfit) as Hsplit.
        rewrite Heq in Hsplit. exact Hsplit.
      * rewrite substring_length. lia.
    + intros (pre & post & -> & Hpre).
      rewrite !len_append.
      replace (Z.to_nat index) with (String.length pre)
        by (unfold len in Hpre; lia).
      replace (Z.to_nat (Z.min (index + len s)
                           (len pre + (len s + len post)) - index))
        with (String.length s)
        by (pose proof (len_nonneg post); unfold len in *; lia).
      rewrite substring_append, substring_prefix_append.
      now rewrite String.eqb_refl.
  - unfold string.
    destruct (String.eqb (slice input index (index + len s)) s); auto.
Qed.

(** The theorem for [string("bc")] on ["abcd"] at index 1. *)
Lemma string_matches_occurrence_witness :
  string "bc" "abcd" 1 = Some (true, 3, VStr "bc").
Proof.
  apply (proj2 (proj1 (string_matches_occurrence "bc" "abcd" 1
                         ltac:(vm_compute; split; discriminate)))).
  exists "a", "d". split; reflexivity.
Defined.

(** X2.  At the end of a line without newline that starts the input,
    [line_info_at] gives line 0 and as column the length of the line;
    after a text [before] that a newline ends, it gives one line more
    than [before] has newlines, and the same column. *)
Theorem line_info_at_end_of_line (before line rest : str) :
  count newline line = 0 ->
  line_info_at (line ++ rest) (len line) = Some (0, len line) /\
  line_info_at (before ++ String newline line ++ rest)
               (len before + 1 + len line)
  = Some (count newline before + 1, len line).
Proof.
  intros Hline. pose proof (rfind_absent _ _ Hline) as Hr.
  pose proof (len_nonneg line). pose proof (len_nonneg before).
  pose proof (len_nonneg rest). split.
  - rewrite line_info_at_prefix by (rewrite len_append; lia). cbv zeta.
    replace (Z.to_nat (len line)) with (String.length line)
      by (unfold len; lia).
    rewrite substring_prefix_append, Hline, Hr. reflexivity.
  - set (x := before ++ String newline line).
    assert (Hx : len x = len before + 1 + len line).
    { unfold x. rewrite len_append. unfold len. cbn [String.length]. lia. }
    replace (before ++ String newline line ++ rest) with (x ++ rest)
      by (unfold x; now rewrite append_assoc).
    rewrite <- Hx.
    rewrite line_info_at_prefix by (rewrite len_append; lia). cbv zeta.
    replace (Z.to_nat (len x)) with (String.length x) by (unfold len; lia).
    rewrite substring_prefix_append.
    assert (Hc : count newline x = count newline before + 1).
    { unfold x. rewrite count_append. cbn [count]. rewrite Hline.
      rewrite Ascii.eqb_refl. cbv iota. lia. }
    assert (Hrx : rfind newline x = len before).
    { unfold x. rewrite rfind_append. cbn [rfind]. rewrite Hr.
      change (0 <=? -1) with false. cbv iota.
      rewrite Ascii.eqb_refl. cbv iota.
      change (0 <=? 0) with true. cbv iota. lia. }
    rewrite Hc, Hrx. destruct (Z.leb_spec 0 (len before)); [|lia].
    f_equal. f_equal. lia.
Qed.

(** The theorem for ["foo\nba"] followed by ["r"]. *)
Lemma line_info_at_end_of_line_witness :
  line_info_at ("ba" ++ "r") 2 = Some (0, 2) /\
  line_info_at foo_bar 6 = Some (1, 2).
Proof.
  split.
  - apply (proj1 (line_info_at_end_of_line "" "ba" "r" eq_refl)).
  - apply (proj2 (line_info_at_end_of_line "foo" "ba" "r" eq_refl)).
Defined.

(* ================================================================== *)
(** ** Entry points *)
(* ================================================================== *)

(** X3.  When the parser succeeds from index 0, [parse_partial] returns
    its value with the rest of the input, and the consumed part
    followed by the rest is the input again. *)
Theorem parse_partial_remainder (p : Parser) (input : str) (index : Z)
    (v : value) :
  p input 0 = Some (true, index, v) ->
  exists rest,
    parse_partial p input = Some (inl (v, rest)) /\
    slice input 0 index ++ rest = input.
Proof.
  intros Hp. exists (slice_from input index). split.
  - unfold parse_partial. now rewrite Hp.
  - apply slice_split.
Qed.

(** The theorem for [string("ab")] on ["abcd"]. *)
Lemma parse_partial_remainder_witness :
  exists rest,
    parse_partial (string "ab") "abcd" = Some (inl (VStr "ab", rest)) /\
    slice "abcd" 0 2 ++ rest = "abcd".
Proof.
  apply (parse_partial_remainder (string "ab") "abcd" 2 (VStr "ab")).
  reflexivity.
Defined.

(** X4.  [parse] returns the value when the parser succeeds and leaves
    nothing of the input; when it succeeds before the end, [parse]
    raises a [ParseError] that expects ["EOF"] at the index reached;
    when the parser fails, with whatever index, [parse] raises its
    expectation at index 0, while [parse_partial] raises it at the
    index the parser reported. *)
Theorem parse_outcomes (p : Parser) (input : str) :
  (forall index v,
     p input 0 = Some (true, index, v) -> len input <= index ->
     parse p input = Some (inl v)) /\
  (forall index v,
     p input 0 = Some (true, index, v) -> index < len input ->
     parse p input =
     Some (inr {| ParseError.expected := VStr "EOF";
                  ParseError.stream := input;
                  ParseError.index := index |})) /\
  (forall j e,
     p input 0 = Some (false, j, e) ->
     parse p input =
     Some (inr {| ParseError.expected := e;
                  ParseError.stream := input;
                  ParseError.index := 0 |}) /\
     parse_partial p input =
     Some (inr {| ParseError.expected := e;
                  ParseError.stream := input;
                  ParseError.index := j |})).
Proof.
  unfold parse, parse_partial, __lshift__, skip, result, __rshift__, then_,
    bind, eof, success.
  split; [|split].
  - intros index v Hp Hle. rewrite Hp.
    now destruct (Z.ltb_spec index (len input)); [lia|].
  - intros index v Hp Hlt. rewrite Hp.
    now destruct (Z.ltb_spec index (len input)); [|lia].
  - intros j e Hp. now rewrite Hp.
Qed.

(** The theorem for [string("ab")] on ["ab"] and ["abcd"], and for
    [string("a") >> string("b")] on ["ac"]. *)
Lemma parse_outcomes_witness :
  parse (string "ab") "ab" = Some (inl (VStr "ab")) /\
  parse (string "ab") "abcd" =
    Some (inr {| ParseError.expected := VStr "EOF";
                 ParseError.stream := "abcd";
                 ParseError.index := 2 |}) /\
  parse a_then_b "ac" =
    Some (inr {| ParseError.expected := VStr "b";
                 ParseError.stream := "ac";
                 ParseError.index := 0 |}) /\
  parse_partial a_then_b "ac" =
    Some (inr {| ParseError.expected := VStr "b";
                 ParseError.stream := "ac";
                 ParseError.index := 1 |}).
Proof.
  split; [|split].
  - apply (proj1 (parse_outcomes (string "ab") "ab") 2 (VStr "ab"));
      [reflexivity|vm_compute; discriminate].
  - apply (proj1 (proj2 (parse_outcomes (string "ab") "abcd")) 2 (VStr "ab"));
      reflexivity.
  - apply (proj2 (proj2 (parse_outcomes a_then_b "ac")) 1 (VStr "b")).
    reflexivity.
Defined.

(* ================================================================== *)
(** ** Quantifiers: what they collect and when they stop *)
(* ================================================================== *)

Lemma many_loop_result (fuel : nat) (p : Parser) (stream : str) :
  forall index aggregate status next v,
    many_loop fuel p stream index aggregate = Some (status, next, v) ->
    status = true /\
    (exists l, v = VList (aggregate ++ l)%list) /\
    exists j e, p stream next = Some (false, j, e).
Proof.
  induction fuel as [|fuel IH]; intros index aggregate status next v;
    [discriminate|].
  cbn [many_loop].
  destruct (p stream index) as [[[[|] next_index] x]|] eqn:Hp;
    try discriminate.
  - intros Hloop. apply IH in Hloop.
    destruct Hloop as (Hst & (l & ->) & Hfail).
    split; [exact Hst|]. split; [|exact Hfail].
    exists (x :: l)%list. now rewrite <- app_assoc.
  - intros [= <- <- <-]. split; [reflexivity|].
    split; [exists []%list; now rewrite app_nil_r|eauto].
Qed.

(** X5.  Whenever [many(p)] returns, it returns a success whose value
    is a list, and [p] fails at the index it returns: the loop stops
    only at a failure of [p], which it does not report. *)
Theorem many_never_fails (fuel : nat) (p : Parser) (stream : str)
    (index : Z) (status : bool) (next : Z) (v : value) :
  many fuel p stream index = Some (status, next, v) ->
  status = true /\
  (exists l, v = VList l) /\
  exists j e, p stream next = Some (false, j, e).
Proof.
  unfold many. intros H. apply many_loop_result in H.
  destruct H as (Hst & (l & ->) & Hfail). eauto.
Qed.

(** The theorem for [string("a").many()] on ["aab"]. *)
Lemma many_never_fails_witness :
  true = true /\
  (exists l, VList [VStr "a"; VStr "a"] = VList l) /\
  exists j e, string "a" "aab" 2 = Some (false, j, e).
Proof.
  apply (many_never_fails 5 (string "a") "aab" 0 true 2
           (VList [VStr "a"; VStr "a"])).
  reflexivity.
Defined.

Lemma many_loop_returns (p : Parser) (stream : str) (start : Z) :
  (forall i next v, p stream i = Some (true, next, v) ->
                    i < next <= len stream) ->
  (forall i, start <= i <= len stream -> p stream i <> None) ->
  forall fuel index aggregate,
    start <= index <= len stream ->
    (Z.to_nat (len stream - index) < fuel)%nat ->
    exists next l,
      many_loop fuel p stream index aggregate
        = Some (true, next, VList (aggregate ++ l)%list) /\
      index <= next <= len stream /\
      Z.of_nat (List.length l) <= next - index.
Proof.
  intros Hconsume Hreturns.
  induction fuel as [|fuel IH]; intros index aggregate Hrange Hfuel; [lia|].
  cbn [many_loop].
  destruct (p stream index) as [[[[|] next_index] x]|] eqn:Hp.
  - pose proof (Hconsume _ _ _ Hp) as Hadv.
    destruct (IH next_index (aggregate ++ [x])%list) as (next & l & Hl & Hn & Hc);
      [lia|lia|].
    exists next, (x :: l)%list. rewrite Hl, <- app_assoc.
    split; [reflexivity|]. cbn [List.length]. lia.
  - exists index, []%list. rewrite app_nil_r.
    split; [reflexivity|]. cbn [List.length]. lia.
  - exfalso. now apply (Hreturns index).
Qed.

(** X6.  When every match of [p] consumes input and [p] itself returns
    at the indices of the input from [index] on, [many(p)] started at
    [index] returns within as many rounds as characters are left, plus
    the one in which [p] fails; it collects no more values than it
    consumes characters. *)
Theorem many_returns_when_p_consumes (p : Parser) (stream : str)
    (index : Z) (fuel : nat) :
  (forall i next v, p stream i = Some (true, next, v) ->
                    i < next <= len stream) ->
  (forall i, index <= i <= len stream -> p stream i <> None) ->
  index <= len stream ->
  (Z.to_nat (len stream - index) < fuel)%nat ->
  exists next l,
    many fuel p stream index = Some (true, next, VList l) /\
    index <= next <= len stream /\
    Z.of_nat (List.length l) <= next - index.
Proof.
  intros Hconsume Hreturns Hle Hfuel. unfold many.
  destruct (many_loop_returns p stream index Hconsume Hreturns fuel index [])
    as (next & l & Hl & Hn & Hc); [lia|exact Hfuel|].
  exists next, l. auto.
Qed.

Lemma get_some (s : str) (n : nat) :
  (n < String.length s)%nat -> get n s <> None.
Proof.
  revert n. induction s as [|c s IH]; intros n Hn; cbn in Hn; [lia|].
  destruct n as [|n]; cbn; [discriminate|]. apply IH. lia.
Qed.

(** A matcher of one item consumes one character and, from index 0
    on, returns. *)
Lemma item_matcher_consumes (fn : str -> bool) (message : value)
    (stream : str) (i next : Z) (v : value) :
  item_matcher fn message stream i = Some (true, next, v) ->
  i < next <= len stream.
Proof.
  unfold item_matcher.
  destruct (Z.ltb_spec i (len stream)); [|discriminate].
  destruct (getitem stream i) as [item|]; [|discriminate].
  destruct (fn item); [|discriminate]. intros [= <- _]. lia.
Qed.

Lemma item_matcher_returns (fn : str -> bool) (message : value)
    (stream : str) (i : Z) :
  0 <= i -> item_matcher fn message stream i <> None.
Proof.
  intros Hi. unfold item_matcher, getitem.
  destruct (Z.ltb_spec i (len stream)); [|discriminate].
  destruct (Z.ltb_spec i 0); [lia|]. cbv zeta.
  destruct (Z.ltb_spec i 0); [lia|].
  pose proof (get_some stream (Z.to_nat i)) as Hget.
  destruct (get (Z.to_nat i) stream) as [c|].
  - destruct (fn (String c "")); discriminate.
  - exfalso. unfold len in *. apply Hget; [lia|reflexivity].
Qed.

(** The theorem for [digit.many()] on ["12a"]. *)
Lemma many_returns_when_p_consumes_witness :
  exists next l,
    many 4 digit "12a" 0 = Some (true, next, VList l) /\
    0 <= next <= len "12a" /\
    Z.of_nat (List.length l) <= next - 0.
Proof.
  apply (many_returns_when_p_consumes digit "12a" 0 4).
  - intros i next v. apply item_matcher_consumes.
  - intros i Hi. apply item_matcher_returns. lia.
  - vm_compute. discriminate.
  - vm_compute. apply le_n.
Defined.

Lemma times_optional_result (rounds : nat) (p : Parser) (stream : str) :
  forall index aggregate status next v,
    times_optional rounds p stream index aggregate = Some (status, next, v) ->
    status = true /\
    exists l, v = VList (aggregate ++ l)%list /\ (List.length l <= rounds)%nat.
Proof.
  induction rounds as [|rounds IH]; intros index aggregate status next v;
    cbn [times_optional].
  - intros [= <- <- <-]. split; [reflexivity|].
    exists []%list. rewrite app_nil_r. split; [reflexivity|apply le_n].
  - destruct (p stream index) as [[[[|] next_index] x]|]; try discriminate.
    + intros Hloop. apply IH in Hloop. destruct Hloop as (Hst & l & -> & Hl).
      split; [exact Hst|]. exists (x :: l)%list. rewrite <- app_assoc.
      split; [reflexivity|cbn [List.length]; lia].
    + intros [= <- <- <-]. split; [reflexivity|].
      exists []%list. rewrite app_nil_r. split; [reflexivity|cbn; lia].
Qed.

Lemma times_required_success (rounds more : nat) (p : Parser) (stream : str) :
  forall index aggregate next v,
    times_required rounds more p stream index aggregate
      = Some (true, next, v) ->
    exists l, v = VList (aggregate ++ l)%list /\
              (rounds <= List.length l <= rounds + more)%nat.
Proof.
  induction rounds as [|rounds IH]; intros index aggregate next v;
    cbn [times_required].
  - intros H. apply times_optional_result in H.
    destruct H as (_ & l & -> & Hl). exists l. split; [reflexivity|lia].
  - destruct (p stream index) as [[[[|] next_index] x]|]; try discriminate.
    intros Hloop. apply IH in Hloop. destruct Hloop as (l & -> & Hl).
    exists (x :: l)%list. rewrite <- app_assoc.
    split; [reflexivity|cbn [List.length]; lia].
Qed.

Lemma times_required_failure (rounds more : nat) (p : Parser) (stream : str) :
  forall index aggregate j e,
    times_required rounds more p stream index aggregate
      = Some (false, j, e) ->
    (0 < rounds)%nat /\ exists i, p stream i = Some (false, j, e).
Proof.
  induction rounds as [|rounds IH]; intros index aggregate j e;
    cbn [times_required].
  - intros H. apply times_optional_result in H. now destruct H.
  - destruct (p stream index) as [[[[|] next_index] x]|] eqn:Hp;
      try discriminate.
    + intros Hloop. apply IH in Hloop. destruct Hloop as (_ & Hfail).
      split; [lia|exact Hfail].
    + intros [= <- <-]. split; [lia|eauto].
Qed.

(** X7.  A success of [times(p, min, max)] carries a list of at least
    [min] values and of at most [max]; when [max] is below [min], or is
    not given, exactly [min] (none, when [min] is negative). *)
Theorem times_collects_between_min_and_max (p : Parser) (min : Z)
    (max : option Z) (stream : str) (index next : Z) (v : value) :
  times p min max stream index = Some (true, next, v) ->
  exists l,
    v = VList l /\
    Z.max 0 min <= Z.of_nat (List.length l) /\
    Z.of_nat (List.length l) <=
      Z.max 0 min + Z.max 0 (match max with Some m => m | None => min end - min).
Proof.
  unfold times. intros H. apply times_required_success in H.
  destruct H as (l & -> & Hl). exists l. split; [reflexivity|lia].
Qed.

(** The theorem for [string("a").times(2, 4)] on ["aaab"]. *)
Lemma times_collects_between_min_and_max_witness :
  exists l,
    VList [VStr "a"; VStr "a"; VStr "a"] = VList l /\
    Z.max 0 2 <= Z.of_nat (List.length l) /\
    Z.of_nat (List.length l) <= Z.max 0 2 + Z.max 0 (4 - 2).
Proof.
  apply (times_collects_between_min_and_max (string "a") 2 (Some 4)
           "aaab" 0 3 (VList [VStr "a"; VStr "a"; VStr "a"])).
  reflexivity.
Defined.

(** X8.  A failure of [times(p, min, max)] is a failure of [p] itself,
    with the index and the expectation that [p] reported, and there is
    none when [min] is not positive: [at_most(p, n)] never fails. *)
Theorem times_fails_only_as_p (p : Parser) (stream : str) (index : Z) :
  (forall min max j e,
     times p min max stream index = Some (false, j, e) ->
     0 < min /\ exists i, p stream i = Some (false, j, e)) /\
  (forall n status next v,
     at_most p n stream index = Some (status, next, v) -> status = true).
Proof.
  split.
  - intros min max j e H. unfold times in H.
    apply times_required_failure in H. destruct H as [Hpos Hfail].
    split; [lia|exact Hfail].
  - intros n status next v H. unfold at_most, times in H.
    change (Z.to_nat 0) with 0%nat in H. cbn [times_required] in H.
    now apply times_optional_result in H.
Qed.

(** The theorem for [string("a").times(2, 4)] on ["ab"] and for
    [string("a").at_most(2)] on ["b"]. *)
Lemma times_fails_only_as_p_witness :
  (0 < 2 /\ exists i, string "a" "ab" i = Some (false, 1, VStr "a")) /\
  true = true.
Proof.
  split.
  - apply (proj1 (times_fails_only_as_p (string "a") "ab" 0)
             2 (Some 4) 1 (VStr "a")).
    reflexivity.
  - apply (proj2 (times_fails_only_as_p (string "a") "b" 0)
             2 true 0 (VList [])).
    reflexivity.
Defined.

(** X9.  [at_least(p, n)] succeeds exactly when [times(p, n)]
    succeeds, with its [n] values (none when [n] is negative), and
    [many(p)] returns from the index where [times] ended: the value is
    the list of the values of [times] followed by the values of [many],
    at the index where [many] ended.  It fails exactly when
    [times(p, n)] fails, with the expectation of that failure, at the
    index it was started at. *)
Theorem at_least_collects_n_or_more (fuel : nat) (p : Parser) (n : Z)
    (stream : str) (index : Z) :
  (forall next v,
     at_least fuel p n stream index = Some (true, next, v) <->
     exists mid required more,
       times p n None stream index = Some (true, mid, VList required) /\
       many fuel p stream mid = Some (true, next, VList more) /\
       v = VList (required ++ more)%list /\
       Z.of_nat (List.length required) = Z.max 0 n) /\
  (forall j e,
     at_least fuel p n stream index = Some (false, j, e) <->
     j = index /\ exists j', times p n None stream index = Some (false, j', e)).
Proof.
  assert (Htimes : forall mid v1,
            times p n None stream index = Some (true, mid, v1) ->
            exists required, v1 = VList required /\
                             Z.of_nat (List.length required) = Z.max 0 n).
  { intros mid v1 Ht. unfold times in Ht.
    apply times_required_success in Ht. destruct Ht as (l1 & -> & Hl1).
    exists l1. split; [reflexivity|lia]. }
  assert (Hmany : forall mid status next v2,
            many fuel p stream mid = Some (status, next, v2) ->
            status = true /\ exists more, v2 = VList more).
  { intros mid status next v2 Hm. unfold many in Hm.
    apply many_loop_result in Hm. destruct Hm as (-> & (l2 & ->) & _).
    split; [reflexivity|now exists l2]. }
  unfold at_least, __add__, map, bind.
  destruct (times p n None stream index) as [[[[|] mid] v1]|] eqn:Ht.
  - destruct (Htimes mid v1 eq_refl) as (required & -> & Hreq).
    destruct (many fuel p stream mid) as [[[status next'] v2]|] eqn:Hm.
    + destruct (Hmany mid status next' v2 Hm) as (-> & more & ->).
      cbn [py_add]. unfold success. split.
      * intros next v. split.
        -- intros [= <- <-]. exists mid, required, more.
           rewrite Hm. auto.
        -- intros (mid' & required' & more' & [= <- <-] & Hm' & -> & _).
           rewrite Hm in Hm'. now injection Hm' as <- <-.
      * intros j e. split; [discriminate|].
        intros (_ & j' & Hfalse). discriminate.
    + split.
      * intros next v. split; [discriminate|].
        intros (mid' & required' & more' & [= <- <-] & Hm' & _).
        rewrite Hm in Hm'. discriminate.
      * intros j e. split; [discriminate|].
        intros (_ & j' & Hfalse). discriminate.
  - split.
    + intros next v. split; [discriminate|].
      intros (mid' & required' & more' & Hfalse & _). discriminate.
    + intros j e. split.
      * intros [= <- <-]. split; [reflexivity|now exists mid].
      * intros (-> & j' & [= _ <-]). reflexivity.
  - split.
    + intros next v. split; [discriminate|].
      intros (mid' & required' & more' & Hfalse & _). discriminate.
    + intros j e. split; [discriminate|].
      intros (_ & j' & Hfalse). discriminate.
Qed.

(** The theorem for [string("a").at_least(1)] on ["aab"], where
    [times] ends at index 1 and [many] at index 2, and on ["b"], where
    [times] fails. *)
Lemma at_least_collects_n_or_more_witness :
  at_least 5 (string "a") 1 "aab" 0 =
    Some (true, 2, VList ([VStr "a"] ++ [VStr "a"])%list) /\
  at_least 5 (string "a") 1 "b" 0 = Some (false, 0, VStr "a").
Proof.
  split.
  - apply (proj2 (proj1 (at_least_collects_n_or_more
                           5 (string "a") 1 "aab" 0) 2 _)).
    exists 1, [VStr "a"]%list, [VStr "a"]%list. repeat split.
  - apply (proj2 (proj2 (at_least_collects_n_or_more
                           5 (string "a") 1 "b" 0) 0 (VStr "a"))).
    split; [reflexivity|]. exists 0. reflexivity.
Defined.

Lemma py_add_parsers (p q : Parser) :
  py_add (VParser p) (VParser q) = Some (VParser (__add__ p q)).
Proof. reflexivity. Qed.

(* ================================================================== *)
(** ** How the combinators compose *)
(* ================================================================== *)

(** X10.  Ordered choice is associative, [fail] is neutral on its
    left, and when the first two of three alternatives fail the result
    is the third's, as it is: the failures before it leave no trace. *)
Theorem choice_is_associative (p q r : Parser) (stream : str) (index : Z) :
  __or__ (__or__ p q) r stream index = __or__ p (__or__ q r) stream index /\
  (forall message, __or__ (fail message) p stream index = p stream index) /\
  (forall j1 e1 j2 e2,
     p stream index = Some (false, j1, e1) ->
     q stream index = Some (false, j2, e2) ->
     __or__ (__or__ p q) r stream index = r stream index).
Proof.
  unfold __or__, fail. split; [|split].
  - destruct (p stream index) as [[[[|] i1] v1]|]; reflexivity.
  - reflexivity.
  - intros j1 e1 j2 e2 Hp Hq. now rewrite Hp, Hq.
Qed.

(** The theorem for [string("a") | string("b") | string("c")] on
    ["d"]: only ["c"] is reported. *)
Lemma choice_is_associative_witness :
  __or__ (__or__ (string "a") (string "b")) (string "c") "d" 0
  = string "c" "d" 0.
Proof.
  apply (proj2 (proj2 (choice_is_associative
                         (string "a") (string "b") (string "c") "d" 0))
           0 (VStr "a") 0 (VStr "b")); reflexivity.
Defined.

(** X11.  [bind] with [success]: [bind(success(v), f)] is [f(v)];
    [bind(p, success)] is [p], and [bind] is associative, both up to
    the index that a failure reports. *)
Theorem bind_laws_up_to_failure_index (p : Parser) (f g : value -> Parser)
    (v : value) (stream : str) (index : Z) :
  bind (success v) f stream index = f v stream index /\
  same_but_failure_index (bind p success stream index) (p stream index) /\
  same_but_failure_index
    (bind (bind p f) g stream index)
    (bind p (fun x => bind (f x) g) stream index).
Proof.
  split; [reflexivity|]. unfold bind, success. split.
  - destruct (p stream index) as [[[[|] i1] v1]|]; cbn; auto.
  - destruct (p stream index) as [[[[|] i1] v1]|]; cbn; auto.
    destruct (f v1 stream i1) as [[[[|] i2] v2]|]; cbn; auto.
    apply same_but_failure_index_refl.
Qed.

(** X12.  When [p] succeeds and then [q] succeeds from where [p]
    ended, [p >> q] yields the value of [q], [p << q] the value of [p]
    and [p + q] their sum, all three at the index where [q] ended.
    When [q] fails there, [p >> q] returns the failure of [q] as it is
    and [p << q] reports it where [q] was started. *)
Theorem sequencing_keeps_one_value (p q : Parser) (stream : str)
    (index i1 : Z) (v : value) :
  p stream index = Some (true, i1, v) ->
  (forall i2 w,
     q stream i1 = Some (true, i2, w) ->
     __rshift__ p q stream index = Some (true, i2, w) /\
     __lshift__ p q stream index = Some (true, i2, v) /\
     forall sum, py_add v w = Some sum ->
                 __add__ p q stream index = Some (true, i2, sum)) /\
  (forall j e,
     q stream i1 = Some (false, j, e) ->
     __rshift__ p q stream index = Some (false, j, e) /\
     __lshift__ p q stream index = Some (false, i1, e)).
Proof.
  intros Hp.
  unfold __rshift__, __lshift__, __add__, skip, result, __rshift__, then_,
    map, bind, success.
  rewrite Hp. split.
  - intros i2 w Hq. rewrite Hq. repeat split.
    intros sum Hsum. now rewrite Hsum.
  - intros j e Hq. now rewrite Hq.
Qed.

(** The theorem for [string("a")] and [string("b")] on ["ab"] and on
    ["ac"]. *)
Lemma sequencing_keeps_one_value_witness :
  (__rshift__ (string "a") (string "b") "ab" 0 = Some (true, 2, VStr "b") /\
   __lshift__ (string "a") (string "b") "ab" 0 = Some (true, 2, VStr "a") /\
   __add__ (string "a") (string "b") "ab" 0 = Some (true, 2, VStr "ab")) /\
  (__rshift__ (string "a") (string "b") "ac" 0 = Some (false, 1, VStr "b") /\
   __lshift__ (string "a") (string "b") "ac" 0 = Some (false, 1, VStr "b")).
Proof.
  split.
  - destruct (proj1 (sequencing_keeps_one_value (string "a") (string "b")
                       "ab" 0 1 (VStr "a") eq_refl) 2 (VStr "b") eq_refl)
      as (H1 & H2 & H3).
    split; [exact H1|]. split; [exact H2|]. now apply H3.
  - apply (proj2 (sequencing_keeps_one_value (string "a") (string "b")
                    "ac" 0 1 (VStr "a") eq_refl) 1 (VStr "b")).
    reflexivity.
Defined.

Lemma line_info_returns (stream : str) (index : Z) :
  index <= len stream ->
  exists line col,
    line_info_at stream index = Some (line, col) /\
    line_info stream index = Some (true, index, VTuple [VInt line; VInt col]).
Proof.
  intros Hle. unfold line_info, line_info_at.
  destruct (Z.ltb_spec (len stream) index); [lia|]. eauto.
Qed.

Lemma line_info_raises (stream : str) (index : Z) :
  len stream < index -> line_info stream index = None.
Proof.
  intros Hlt. unfold line_info, line_info_at.
  now destruct (Z.ltb_spec (len stream) index); [|lia].
Qed.

(** X13.  Started inside the input, [mark(p)] yields the triple of the
    position of the starting index, the value of [p] and the position
    of the index where [p] ended, when [p] succeeds and ends inside the
    input; when [p] fails, [mark(p)] fails at the starting index and
    expects ["marked"], whatever [p] expected.  Started past the end of
    the input it raises. *)
Theorem mark_brackets_value (p : Parser) (stream : str) (index : Z) :
  (forall next v,
     index <= len stream ->
     p stream index = Some (true, next, v) ->
     next <= len stream ->
     exists l0 c0 l1 c1,
       line_info_at stream index = Some (l0, c0) /\
       line_info_at stream next = Some (l1, c1) /\
       mark p stream index =
       Some (true, next,
             VTuple [VTuple [VInt l0; VInt c0]; v; VTuple [VInt l1; VInt c1]])) /\
  (forall j e,
     index <= len stream ->
     p stream index = Some (false, j, e) ->
     mark p stream index = Some (false, index, VStr "marked")) /\
  (len stream < index -> mark p stream index = None).
Proof.
  unfold mark, generate, desc, __or__, generated.
  split; [|split].
  - intros next v Hle Hp Hnext.
    destruct (line_info_returns stream index Hle) as (l0 & c0 & Hat0 & H0).
    destruct (line_info_returns stream next Hnext) as (l1 & c1 & Hat1 & H1).
    exists l0, c0, l1, c1. split; [exact Hat0|]. split; [exact Hat1|].
    cbn. rewrite H0. cbn. rewrite Hp. cbn. now rewrite H1.
  - intros j e Hle Hp.
    destruct (line_info_returns stream index Hle) as (l0 & c0 & _ & H0).
    cbn. rewrite H0. cbn. now rewrite Hp.
  - intros Hlt. cbn. now rewrite line_info_raises.
Qed.

(** The theorem for [string("a").mark()] on ["xa"] at index 1, and on
    ["xb"]. *)
Lemma mark_brackets_value_witness :
  (exists l0 c0 l1 c1,
     line_info_at "xa" 1 = Some (l0, c0) /\
     line_info_at "xa" 2 = Some (l1, c1) /\
     mark (string "a") "xa" 1 =
     Some (true, 2,
           VTuple [VTuple [VInt l0; VInt c0]; VStr "a";
                   VTuple [VInt l1; VInt c1]])) /\
  mark (string "a") "xb" 1 = Some (false, 1, VStr "marked") /\
  mark (string "a") "xa" 3 = None.
Proof.
  split; [|split].
  - apply (proj1 (mark_brackets_value (string "a") "xa" 1) 2 (VStr "a"));
      [vm_compute; discriminate|reflexivity|vm_compute; discriminate].
  - apply (proj1 (proj2 (mark_brackets_value (string "a") "xb" 1))
             1 (VStr "a")); [vm_compute; discriminate|reflexivity].
  - apply (proj2 (proj2 (mark_brackets_value (string "a") "xa" 3))).
    reflexivity.
Defined.


(* ================================================================== *)
(** ** Errors that can be rendered *)
(* ================================================================== *)

Lemma built_in_input (p : Parser) : built re_span p -> advances in_input p.
Proof.
  apply built_advances.
  - apply string_in_input.
  - apply item_matcher_in_input.
  - apply regex_in_input.
Qed.

Lemma times_required_reports_in_input (p : Parser) (stream : str)
    (rounds more : nat) :
  advances in_input p -> reports_in_input p ->
  forall index aggregate j e,
    index <= len stream ->
    times_required rounds more p stream index aggregate
      = Some (false, j, e) ->
    j <= len stream.
Proof.
  intros Hadv Hrep.
  induction rounds as [|rounds IH]; intros index aggregate j e Hle;
    cbn [times_required].
  - intros H. apply times_optional_result in H. now destruct H.
  - destruct (p stream index) as [[[[|] next_index] x]|] eqn:Hp;
      try discriminate.
    + apply IH. now apply Hadv in Hp.
    + intros [= <- _]. now apply Hrep in Hp.
Qed.

Lemma built_reports_in_input (p : Parser) :
  built re_span p -> reports_in_input p.
Proof.
  induction 1 as [| |val|message|s|exp Hok|fn message| |
                  |self bind_fn Hself IHself Hfn IHfn
                  |self other Hself IHself Hother IHother
                  |fuel self Hself IHself
                  |self min max Hself IHself
                  |fuel fn Hfn IHfn];
    intros stream index j e Hle.
  - discriminate.
  - unfold line_info. destruct (line_info_at stream index) as [[? ?]|];
      discriminate.
  - discriminate.
  - now intros [= <- _].
  - unfold string.
    destruct (String.eqb _ _); [discriminate|]. now intros [= <- _].
  - unfold regex. destruct (re_match exp stream index) as [[? ?]|];
      [discriminate|]. now intros [= <- _].
  - unfold item_matcher. destruct (index <? len stream).
    + destruct (getitem stream index) as [item|]; [|discriminate].
      destruct (fn item); [discriminate|]. now intros [= <- _].
    + now intros [= <- _].
  - unfold eof. destruct (index <? len stream); [|discriminate].
    now intros [= <- _].
  - discriminate.
  - unfold bind.
    destruct (self stream index) as [[[[|] new_index] x]|] eqn:Hs;
      try discriminate.
    + apply (IHfn x). now apply (built_in_input self Hself) in Hs.
    + now intros [= <- _].
  - unfold __or__.
    destruct (self stream index) as [[[[|] next_index] x]|];
      try discriminate.
    now apply IHother.
  - intros H. unfold many in H. apply many_loop_result in H.
    now destruct H.
  - unfold times.
    apply times_required_reports_in_input;
      [now apply built_in_input|exact IHself|exact Hle].
  - unfold generate, desc, __or__, fail.
    destruct (generated fuel fn stream index) as [[[[|] i1] v1]|];
      try discriminate.
    now intros [= <- _].
Qed.

Lemma parse_error_rendering_bounds (py_str : value -> str)
    (err : ParseError.t) :
  (ParseError.index err <= len (ParseError.stream err) ->
   exists text, ParseError.__str__ py_str err = Some text) /\
  (len (ParseError.stream err) < ParseError.index err ->
   ParseError.__str__ py_str err = None).
Proof.
  unfold ParseError.__str__, ParseError.line_info, line_info_at.
  destruct (Z.ltb_spec (len (ParseError.stream err)) (ParseError.index err));
    split; intros; try lia; eauto.
Qed.



(* ================================================================== *)
(** ** More on positions, literals and repetition *)
(* ================================================================== *)

Lemma count_le_rfind (c : ascii) (s : str) : count c s <= rfind c s + 1.
Proof.
  induction s as [|a s IH]; cbn [count rfind]; [lia|].
  pose proof (rfind_ge c s). pose proof (count_nonneg c s).
  destruct (Z.leb_spec 0 (rfind c s)).
  - destruct (Ascii.eqb a c); lia.
  - destruct (Ascii.eqb a c); lia.
Qed.

(** X16.  Inside the input, the line and the column that
    [line_info_at] returns are not negative, and together they do not
    exceed the index: every line before costs its newline. *)
Theorem line_info_at_bounds (stream : str) (index : Z) :
  0 <= index <= len stream ->
  exists line col,
    line_info_at stream index = Some (line, col) /\
    0 <= line /\ 0 <= col /\ line + col <= index.
Proof.
  intros Hrange. rewrite line_info_at_prefix by assumption. cbv zeta.
  set (prefix := substring 0 (Z.to_nat index) stream).
  assert (Hlen : len prefix = index).
  { unfold len, prefix. rewrite substring_length. unfold len in Hrange. lia. }
  pose proof (count_nonneg newline prefix) as Hc.
  pose proof (count_le_rfind newline prefix) as Hcr.
  do 2 eexists. split; [reflexivity|].
  destruct (rfind_spec newline prefix) as [[Hr _]|(Hr & _ & _)].
  - rewrite Hr in *. change (0 <=? -1) with false. cbv iota. lia.
  - destruct (Z.leb_spec 0 (rfind newline prefix)); lia.
Qed.

(** The theorem at the end of ["foo\nbar"]. *)
Lemma line_info_at_bounds_witness :
  exists line col,
    line_info_at foo_bar 7 = Some (line, col) /\
    0 <= line /\ 0 <= col /\ line + col <= 7.
Proof.
  apply (line_info_at_bounds foo_bar 7). vm_compute. split; discriminate.
Defined.

Lemma string_at_start (s rest : str) :
  string s (s ++ rest) 0 = Some (true, len s, VStr s).
Proof.
  unfold string. pose proof (len_nonneg s). pose proof (len_nonneg rest).
  rewrite slice_substring by (try rewrite len_append; lia).
  rewrite len_append, Z.add_0_l, Z.min_l, Z.sub_0_r by lia.
  change (Z.to_nat 0) with 0%nat.
  replace (Z.to_nat (len s)) with (String.length s) by (unfold len; lia).
  now rewrite substring_prefix_append, String.eqb_refl.
Qed.

Lemma slice_from_append (s rest : str) : slice_from (s ++ rest) (len s) = rest.
Proof.
  unfold slice_from. pose proof (len_nonneg s). pose proof (len_nonneg rest).
  rewrite slice_substring by (try rewrite len_append; lia).
  rewrite Z.min_id, len_append.
  replace (Z.to_nat (len s)) with (String.length s) by (unfold len; lia).
  replace (Z.to_nat (len s + len rest - len s)) with (String.length rest)
    by (unfold len; lia).
  now rewrite substring_append, substring_all.
Qed.

(** X17.  On an input that starts with [s], [parse_partial(string(s))]
    returns [s] and what follows it; on [s] itself [parse(string(s))]
    returns [s]. *)
Theorem parse_partial_string_round_trip (s rest : str) :
  parse_partial (string s) (s ++ rest) = Some (inl (VStr s, rest)) /\
  parse (string s) s = Some (inl (VStr s)).
Proof.
  split.
  - unfold parse_partial. now rewrite string_at_start, slice_from_append.
  - unfold parse, parse_partial, __lshift__, skip, result, __rshift__, then_,
      bind.
    pose proof (string_at_start s "") as Hs. rewrite append_nil_r in Hs.
    rewrite Hs. unfold eof.
    now destruct (Z.ltb_spec (len s) (len s)); [lia|].
Qed.

(** X18.  With nothing required, [at_least] is [many]:
    [at_least(p, n)] for [n <= 0] returns what [many(p)] returns. *)
Theorem at_least_none_is_many (fuel : nat) (p : Parser) (n : Z)
    (stream : str) (index : Z) :
  n <= 0 ->
  at_least fuel p n stream index = many fuel p stream index.
Proof.
  intros Hn. unfold at_least, __add__, map, bind, times.
  replace (Z.to_nat n) with 0%nat by lia.
  replace (Z.to_nat (n - n)) with 0%nat by lia.
  cbn [times_required times_optional].
  destruct (many fuel p stream index) as [[[status next] v]|] eqn:Hm;
    [|reflexivity].
  unfold many in Hm. apply many_loop_result in Hm.
  destruct Hm as (-> & (l & ->) & _). reflexivity.
Qed.

(** The theorem for [string("a").at_least(0)] on ["aab"]. *)
Lemma at_least_none_is_many_witness :
  at_least 5 (string "a") 0 "aab" 0 = many 5 (string "a") "aab" 0.
Proof.
  apply (at_least_none_is_many 5 (string "a") 0 "aab" 0). apply Z.le_refl.
Defined.
